(** * libgibbs: the [GibbsOpt] constructor (optimizer/opt_Gibbs_ctor.cpp)

    A shallow embedding of the constructor that assembles the constrained
    Gibbs-energy minimisation problem: selection of the entered phases,
    the composition sets, the mandatory and the user constraints, the
    Jacobian of the constraints and the sparsity structure of the Hessian.

    Conventions of the embedding.
    - [std::map<std::string, V>] is an association list kept sorted on its
      keys ([StdMap]); iterating the map is iterating the list.
    - C++ [int] values are [Z]; sizes and iterator distances are [nat].
      The counters of this file count elements of containers held in
      memory and stay far below 2^31.
    - [double] is the IEEE 754 binary64 format, as [spec_float].
    - An exception leaving the constructor ([std::out_of_range] of
      [at], a [utree] type error) is [None].
    - The records sent to the logger are collected, in order, in a list. *)

From Stdlib Require Import ZArith String List Lia Sorted.
From Stdlib Require Import Floats.SpecFloat DecimalString OrderedTypeEx.
From stdpp Require Import gmap strings list fin_maps sorting.

Set Warnings "-register-all,-clear-no-such-hyp".
Local Open Scope Z_scope.

(** ** Doubles *)

Definition double : Type := spec_float.

(** Conversion of a C++ [int] to [double]; it is exact for 32-bit values. *)
Definition double_of_int (i : Z) : double := binary_normalize 53 1024 i 0 false.

(** The comparison [a == b] on doubles. *)
Definition double_eq (a b : double) : bool := SFeqb a b.

(** ** [boost::spirit::utree] *)

(** The dynamically typed tree, named after the tags of [utree_type]. *)
Inductive utree : Type :=
| invalid_type
| nil_type
| bool_type (b : bool)
| int_type (i : Z)
| double_type (d : double)
| string_type (s : string)
| symbol_type (s : string)
| list_type (l : list utree).

(** [ut.which() == double_type || ut.which() == int_type] *)
Definition is_double_or_int (ut : utree) : bool :=
  match ut with
  | double_type _ | int_type _ => true
  | _ => false
  end.

(** [ut.get<double>()]: numeric nodes convert, any other node throws. *)
Definition get_double (ut : utree) : option double :=
  match ut with
  | bool_type b => Some (double_of_int (if b then 1 else 0))
  | int_type i => Some (double_of_int i)
  | double_type d => Some d
  | _ => None
  end.

(** [ut.push_back(x)]: a default-constructed tree becomes a list, a list
    grows at its end, any other node throws. *)
Definition push_back (ut x : utree) : option utree :=
  match ut with
  | invalid_type => Some (list_type [x])
  | list_type l => Some (list_type (l ++ [x]))
  | _ => None
  end.

(** [add_trees]: replace [root_tree] by the sum of itself and [new_tree];
    the result is the new value of [root_tree]. *)
Definition add_trees (root_tree new_tree : utree) : option utree :=
  temp_tree ← push_back invalid_type (string_type "+");
  temp_tree ← push_back temp_tree root_tree;
  push_back temp_tree new_tree.

(** ** [std::map] with string keys *)

Module StdMap.
Section Defs.
Context {V : Type}.

Definition t : Type := list (string * V).

Definition keys (m : t) : list string := fst <$> m.

Definition key_lt (a b : string) : Prop := String.compare a b = Lt.

(** The representation invariant: keys strictly increasing. *)
Definition sorted (m : t) : Prop := StronglySorted key_lt (keys m).

(** [m.find(k)], [None] standing for [m.end()]. *)
Fixpoint find (k : string) (m : t) : option V :=
  match m with
  | [] => None
  | (k', v) :: m' => if String.eqb k k' then Some v else find k m'
  end.

(** [m[k] = v] *)
Fixpoint assign (k : string) (v : V) (m : t) : t :=
  match m with
  | [] => [(k, v)]
  | (k', v') :: m' =>
      match String.compare k k' with
      | Lt => (k, v) :: m
      | Eq => (k, v) :: m'
      | Gt => (k', v') :: assign k v m'
      end
  end.

(** [m.emplace(k, v)]: nothing changes when the key is present. *)
Fixpoint emplace (k : string) (v : V) (m : t) : t :=
  match m with
  | [] => [(k, v)]
  | (k', v') :: m' =>
      match String.compare k k' with
      | Lt => (k, v) :: m
      | Eq => m
      | Gt => (k', v') :: emplace k v m'
      end
  end.

(** Reading [m[k]]: a missing key is first inserted with the
    value-initialised [dflt]. *)
Definition subscript (dflt : V) (k : string) (m : t) : V * t :=
  match find k m with
  | Some v => (v, m)
  | None => (dflt, emplace k dflt m)
  end.

(** Mutation of the element an iterator points to. *)
Fixpoint modify (k : string) (f : V → V) (m : t) : t :=
  match m with
  | [] => []
  | (k', v) :: m' =>
      if String.eqb k k' then (k', f v) :: m' else (k', v) :: modify k f m'
  end.
End Defs.
Arguments t : clear implicits.
End StdMap.

(** ** Loops *)

(** [for (auto i = c.begin(); i != c.end(); ++i) body], the state of the
    loop passed from one iteration to the next. *)
Definition for_each {A S : Type} (body : A → S → S) (c : list A) (s : S) : S :=
  fold_left (λ s i, body i s) c s.

(** The same loop when an iteration may throw. *)
Fixpoint for_each_try {A S : Type} (body : A → S → option S) (c : list A)
    (s : S) : option S :=
  match c with
  | [] => Some s
  | i :: c' => s' ← body i s; for_each_try body c' s'
  end.

(** The elements of a container with [std::distance(c.begin(), i)]. *)
Definition enumerate {A : Type} (c : list A) : list (nat * A) :=
  combine (seq 0 (length c)) c.

(** [ss << n] for a non-negative count. *)
Definition decimal (n : nat) : string := NilEmpty.string_of_uint (Nat.to_uint n).

(** ** Conditions, constraints, log records *)

(** Modelled from the spec: the enumeration [PhaseStatus] is declared in a
    header that is not among the sources; section 6 of the spec gives the
    status of a phase as ENTERED or not. *)
Inductive PhaseStatus : Type := ENTERED | NOT_ENTERED.

#[global] Instance PhaseStatus_eq_dec : EqDecision PhaseStatus.
Proof. solve_decision. Defined.

(** Modelled from the spec: [evalconditions] is declared in a header that
    is not among the sources; these are the three members the constructor
    reads (section 6 of the spec, the names as the constructor uses them). *)
Record evalconditions : Type := {
  elements : list string;
  phases : StdMap.t PhaseStatus;
  xfrac : StdMap.t double
}.

Definition set_phases (c : evalconditions) (p : StdMap.t PhaseStatus) : evalconditions :=
  {| elements := elements c; phases := p; xfrac := xfrac c |}.

(** [boost::bimap<std::string, int>], by its left view. *)
Definition index_bimap : Type := StdMap.t Z.

(** [indices.left.at(name)], which throws for an unknown name. *)
Definition left_at (name : string) (indices : index_bimap) : option Z :=
  StdMap.find name indices.

(** A constraint object, by the constructor call that made it. The three
    classes are declared in a header that is not among the sources. *)
Inductive Constraint (Phase : Type) : Type :=
| PhaseFractionBalanceConstraint (phase_range : StdMap.t Phase)
| SublatticeBalanceConstraint (phase_name : string) (sublattice_index : nat)
    (species : list string)
| MassBalanceConstraint (phase_range : StdMap.t Phase) (element : string)
    (target : double).
Arguments PhaseFractionBalanceConstraint {Phase}.
Arguments SublatticeBalanceConstraint {Phase}.
Arguments MassBalanceConstraint {Phase}.

(** Modelled from the spec: [ConstraintManager] is defined in a file that
    is not among the sources; section 4.3 of the spec makes it the ordered
    list of the constraints, in insertion order. *)
Record ConstraintManager (Phase : Type) : Type := {
  constraints : list (Constraint Phase)
}.
Arguments Build_ConstraintManager {Phase}.
Arguments constraints {Phase}.

(** Modelled from the spec: [addConstraint] appends the constraint, the
    order of insertion giving the index of a constraint (section 3 of the
    spec). *)
Definition addConstraint {Phase : Type} (cons : Constraint Phase)
    (cm : ConstraintManager Phase) : ConstraintManager Phase :=
  {| constraints := constraints cm ++ [cons] |}.

(** [jacobian_entry(cons_index, var_index, flag, ast)]; the constructor
    always passes [false] as third argument. *)
Record jacobian_entry : Type := {
  cons_index : Z;
  var_index : Z;
  jac_flag : bool;
  ast : utree
}.

(** Modelled from the spec: [hessian_set] and [hessian_entry] are declared
    in a header that is not among the sources; by section 3 of the spec an
    entry is keyed by a pair of variable indices and maps constraint
    indices to second-derivative trees ([asts]). *)
Definition hessian_set : Type := gmap (Z * Z) (gmap Z utree).

(** Modelled from the spec: the severity levels are declared in a header
    that is not among the sources; the constructor uses [debug] and
    [critical], and section 7 of the spec names the latter as the highest
    severity. *)
Inductive severity_level : Type := debug | critical.

(** Modelled from the spec: the order of the severity levels, [critical]
    being the highest (section 7 of the spec). *)
Definition severity_rank (s : severity_level) : nat :=
  match s with debug => 0 | critical => 1 end.

(** What is streamed into a log record. *)
Inductive log_item : Type :=
| LStr (s : string)
| LInt (i : Z)
| LSize (n : nat)
| LTree (ut : utree).

Record log_record : Type := {
  log_channel : option string;
  log_severity : severity_level;
  log_message : list log_item
}.

(** [BOOST_LOG_SEV(opto_log, sev) << ...] *)
Definition LOG_SEV (sev : severity_level) (msg : list log_item) : log_record :=
  {| log_channel := None; log_severity := sev; log_message := msg |}.

(** [BOOST_LOG_CHANNEL_SEV(opto_log, chan, sev) << ...] *)
Definition LOG_CHANNEL_SEV (chan : string) (sev : severity_level)
    (msg : list log_item) : log_record :=
  {| log_channel := Some chan; log_severity := sev; log_message := msg |}.

(** ** The collaborators of the constructor

    Types and functions that the constructor uses and that are defined in
    other translation units. They are total, pure functions here. *)
Class Collaborators : Type := {
  Phase : Type;
  Sublattice : Type;
  (** [get_sublattice_iterator()] to [get_sublattice_iterator_end()] *)
  get_sublattices : Phase → list Sublattice;
  (** [get_species_iterator()] to [get_species_iterator_end()] *)
  get_species : Sublattice → list string;
  Database : Type;
  (** [get_phase_iterator()] to [get_phase_iterator_end()] *)
  get_phases : Database → StdMap.t Phase;
  parameter_set : Type;
  get_parameter_set : Database → parameter_set;
  (** the value-initialised [PhaseStatus] *)
  PhaseStatus_init : PhaseStatus;
  sublattice_set : Type;
  (** returns the sublattice set and the filled index map *)
  build_variable_map : StdMap.t Phase → evalconditions → sublattice_set * index_bimap;
  CompositionSet : Type;
  CompositionSet_ctor : Phase → parameter_set → sublattice_set → index_bimap → CompositionSet;
  set_starting_point : CompositionSet → list double → CompositionSet;
  hessian_sparsity_structure : CompositionSet → index_bimap → gset (list Z);
  LocateMinima : CompositionSet → sublattice_set → evalconditions → list (list double);
  differentiate_utree : utree → string → utree;
  simplify_utree : utree → utree;
  (** the members [name], [lhs] and [rhs] of a constraint *)
  name : Constraint Phase → string;
  lhs : Constraint Phase → utree;
  rhs : Constraint Phase → utree
}.

(** ** The constructor *)

Section GibbsOpt.
Context `{Collaborators}.

(** The members of [GibbsOpt] that the constructor sets. The class is
    declared in a header that is not among the sources; [phase_col] and
    [comp_sets] are maps from phase names, as the constructor uses them
    ([operator[]], [emplace], [first] and [second]), [fixed_indices] and
    [jac_g_trees] are vectors, [hess_sparsity_structure] is a
    [std::set<std::list<int>>]. The range [phase_iter] to [phase_end] is
    all of [phase_col] from line 53 on. *)
Record GibbsOpt : Type := {
  conditions : evalconditions;
  phase_col : StdMap.t Phase;
  main_ss : sublattice_set;
  main_indices : index_bimap;
  comp_sets : StdMap.t CompositionSet;
  cm : ConstraintManager Phase;
  fixed_indices : list Z;
  jac_g_trees : list jacobian_entry;
  constraint_hessian_data : hessian_set;
  hess_sparsity_structure : gset (list Z)
}.

(** *** Lines 43-49: the entered phases of the database *)

Definition select_phase (conditions : evalconditions) (i : string * Phase)
    (phase_col : StdMap.t Phase) : StdMap.t Phase :=
  match StdMap.find i.1 (phases conditions) with
  | Some status =>
      if bool_decide (status = ENTERED) then StdMap.assign i.1 i.2 phase_col
      else phase_col
  | None => phase_col
  end.

(** *** Lines 62-64: the variables are logged *)

Definition log_variable (i : string * Z) (log : list log_record) : list log_record :=
  log ++ [LOG_SEV debug [LStr "Variable "; LInt i.2; LStr ": "; LStr i.1]].

(** *** Lines 71-86: one composition set for each entered phase *)

Definition comp_set_body (pset : parameter_set) (main_ss : sublattice_set)
    (main_indices : index_bimap) (i : string * Phase)
    (s : evalconditions * Z * StdMap.t CompositionSet * list log_record)
    : evalconditions * Z * StdMap.t CompositionSet * list log_record :=
  let '(conditions, activephases, comp_sets, log) := s in
  let '(status, phases') := StdMap.subscript PhaseStatus_init i.1 (phases conditions) in
  let conditions := set_phases conditions phases' in
  if bool_decide (status ≠ ENTERED) then (conditions, activephases, comp_sets, log)
  else
    let activephases := activephases + 1 in
    let new_set := CompositionSet_ctor i.2 pset main_ss main_indices in
    (* [it.first->second]: the element found or inserted by emplace *)
    let it_first_second := default new_set (StdMap.find i.1 comp_sets) in
    let comp_sets := StdMap.emplace i.1 new_set comp_sets in
    let minima := LocateMinima it_first_second main_ss conditions in
    let log := log ++ [LOG_SEV debug [LSize (length minima); LStr " minima detected"]] in
    match minima with
    | [] => (conditions, activephases, comp_sets, log)
    | [minimum] =>
        (* [minima.size() == 1] *)
        (conditions, activephases,
         StdMap.modify i.1 (λ c, set_starting_point c minimum) comp_sets, log)
    | _ :: _ :: _ =>
        (* [minima.size() > 1]: the branch is empty *)
        (conditions, activephases, comp_sets, log)
    end.

(** *** Lines 89-100: the balance of the phase fractions *)

Definition phase_fraction_balance (activephases : Z) (phase_col : StdMap.t Phase)
    (main_indices : index_bimap) (s : ConstraintManager Phase * list Z)
    : option (ConstraintManager Phase * list Z) :=
  let '(cm, fixed_indices) := s in
  let cm :=
    if 1 <? activephases
    then addConstraint (PhaseFractionBalanceConstraint phase_col) cm
    else cm in
  if activephases =? 1 then
    (* [(phase_col.begin())->first]; there is no such element in an
       empty map *)
    match phase_col with
    | [] => None
    | (first, _) :: _ =>
        index ← left_at (first +:+ "_FRAC") main_indices;
        Some (cm, fixed_indices ++ [index])
    end
  else Some (cm, fixed_indices).

(** *** Lines 103-129: the balance of the site fractions *)

(** Lines 107-112: the species of the sublattice that are elements of
    the conditions. *)
Definition tracked_species (conditions : evalconditions) (k : string)
    (subl_list : list string) : list string :=
  if existsb (String.eqb k) (elements conditions) then subl_list ++ [k]
  else subl_list.

Definition sublattice_body (conditions : evalconditions) (main_indices : index_bimap)
    (phase_name : string) (j : nat * Sublattice)
    (s : ConstraintManager Phase * list Z) : option (ConstraintManager Phase * list Z) :=
  let '(cm, fixed_indices) := s in
  let subl_list := for_each (tracked_species conditions) (get_species j.2) [] in
  match subl_list with
  | [] => Some (cm, fixed_indices)
  | [species] =>
      (* [subl_list.size() == 1] *)
      index ← left_at (phase_name +:+ "_" +:+ decimal j.1 +:+ "_" +:+ species) main_indices;
      Some (cm, fixed_indices ++ [index])
  | _ :: _ :: _ =>
      (* [subl_list.size() > 1] *)
      Some (addConstraint (SublatticeBalanceConstraint phase_name j.1 subl_list) cm,
            fixed_indices)
  end.

Definition sublattice_phase_body (main_indices : index_bimap) (i : string * Phase)
    (s : evalconditions * (ConstraintManager Phase * list Z))
    : option (evalconditions * (ConstraintManager Phase * list Z)) :=
  let '(conditions, cf) := s in
  let '(status, phases') := StdMap.subscript PhaseStatus_init i.1 (phases conditions) in
  let conditions := set_phases conditions phases' in
  if bool_decide (status ≠ ENTERED) then Some (conditions, cf)
  else
    cf ← for_each_try (sublattice_body conditions main_indices i.1)
           (enumerate (get_sublattices i.2)) cf;
    Some (conditions, cf).

(** *** Lines 133-135: the constraints of the user *)

Definition mass_balance_body (phase_col : StdMap.t Phase) (i : string * double)
    (cm : ConstraintManager Phase) : ConstraintManager Phase :=
  addConstraint (MassBalanceConstraint phase_col i.1 i.2) cm.

(** *** Lines 137-140: the constraints are logged *)

Definition log_constraint (i : Constraint Phase) (log : list log_record)
    : list log_record :=
  log ++ [LOG_SEV debug [LStr "Constraint "; LStr (name i); LStr " LHS: "; LTree (lhs i)];
          LOG_SEV debug [LStr "Constraint "; LStr (name i); LStr " RHS: "; LTree (rhs i)]].

(** *** Lines 143-170: the first derivatives of the constraints *)

Definition jacobian_body (i : string * Z) (j : nat * Constraint Phase)
    (s : list jacobian_entry * list log_record)
    : option (list jacobian_entry * list log_record) :=
  let '(jac_g_trees, log) := s in
  let lhs := differentiate_utree (lhs j.2) i.1 in
  let rhs := differentiate_utree (rhs j.2) i.1 in
  let lhs := simplify_utree lhs in
  let rhs := simplify_utree rhs in
  skip ←
    (if is_double_or_int lhs && is_double_or_int rhs then
       lhsget ← get_double lhs;
       rhsget ← get_double rhs;
       Some (double_eq lhsget rhsget)
     else Some false);
  if skip : bool then Some (jac_g_trees, log)   (* don't add zeros to the Jacobian *)
  else
    subtract_tree ← push_back invalid_type (string_type "-");
    subtract_tree ← push_back subtract_tree lhs;
    subtract_tree ← push_back subtract_tree rhs;
    let var_index := i.2 in
    let cons_index := Z.of_nat j.1 in
    Some (jac_g_trees ++
            [{| cons_index := cons_index; var_index := var_index;
                jac_flag := false; ast := subtract_tree |}],
          log ++
            [LOG_SEV debug [LStr "Jacobian of constraint  "; LInt cons_index;
                            LStr " wrt variable "; LInt var_index;
                            LStr " pre-calculated"]]).

Definition jacobian_variable_body (cm : ConstraintManager Phase) (i : string * Z)
    (s : list jacobian_entry * list log_record)
    : option (list jacobian_entry * list log_record) :=
  for_each_try (jacobian_body i) (enumerate (constraints cm)) s.

(** *** Lines 173-178: the sparsity of the Hessian of the objective *)

(** The inner loop inserts every element of the set of the composition
    set, one at a time. *)
Definition objective_sparsity_body (main_indices : index_bimap)
    (i : string * CompositionSet) (hess_sparsity_structure : gset (list Z))
    : gset (list Z) :=
  let comp_set_hess_sparsity_structure := hessian_sparsity_structure i.2 main_indices in
  for_each (λ j hess, {[ j ]} ∪ hess) (base.elements comp_set_hess_sparsity_structure)
    hess_sparsity_structure.

(** *** Lines 181-204: the second derivatives of the constraints *)

(** Modelled from the spec: [is_zero_tree] is defined in a file that is
    not among the sources; by section 4.6 of the spec any tree that
    simplifies to the zero constant counts as zero. *)
Definition is_zero_tree (ut : utree) : bool :=
  match simplify_utree ut with
  | int_type i => i =? 0
  | double_type d => double_eq d (double_of_int 0)
  | _ => false
  end.

Definition hessian_body (i : string * Z) (j : jacobian_entry)
    (s : hessian_set * gset (list Z) * list log_record)
    : hessian_set * gset (list Z) * list log_record :=
  let '(constraint_hessian_data, hess_sparsity_structure, log) := s in
  if i.2 >? var_index j then s   (* skip upper triangular *)
  else
    let cons_second_deriv := differentiate_utree (ast j) i.1 in
    (* don't add zeros to the Hessian *)
    if is_zero_tree cons_second_deriv then s
    else
      let key := (i.2, var_index j) in
      (* create a new Hessian record if it does not exist *)
      let constraint_hessian_data :=
        match constraint_hessian_data !! key with
        | None => <[key := ∅]> constraint_hessian_data
        | Some _ => constraint_hessian_data
        end in
      let h_entry := default ∅ (constraint_hessian_data !! key) in
      let h_entry := <[cons_index j := cons_second_deriv]> h_entry in
      let constraint_hessian_data := <[key := h_entry]> constraint_hessian_data in
      let nonzerolist := [i.2; var_index j] in
      (constraint_hessian_data,
       {[ nonzerolist ]} ∪ hess_sparsity_structure,
       log ++
         [LOG_SEV debug [LStr "Hessian of constraint  "; LInt (cons_index j);
                         LStr " ("; LInt i.2; LStr ","; LInt (var_index j);
                         LStr ") pre-calculated"]]).

Definition hessian_variable_body (jac_g_trees : list jacobian_entry) (i : string * Z)
    (s : hessian_set * gset (list Z) * list log_record)
    : hessian_set * gset (list Z) * list log_record :=
  for_each (hessian_body i) jac_g_trees s.

(** *** The constructor, [GibbsOpt::GibbsOpt(DB, sysstate)]

    The result is the constructed object and the records logged while it
    was built. *)
Definition GibbsOpt_ctor (DB : Database) (sysstate : evalconditions)
    : option (GibbsOpt * list log_record) :=
  let conditions := sysstate in
  let log := [LOG_CHANNEL_SEV "optimizer" debug [LStr "enter ctor"]] in
  let activephases := 0 in
  let phase_col := for_each (select_phase conditions) (get_phases DB) [] in
  let log :=
    if bool_decide (elements conditions = [])
    then log ++ [LOG_SEV critical [LStr "No components entered!"]] else log in
  let log :=
    if bool_decide (phase_col = [])
    then log ++ [LOG_SEV critical [LStr "No phases found!"]] else log in
  let '(main_ss, main_indices) := build_variable_map phase_col conditions in
  let log := for_each log_variable main_indices log in
  let pset := get_parameter_set DB in
  let '(conditions, activephases, comp_sets, log) :=
    for_each (comp_set_body pset main_ss main_indices) phase_col
      (conditions, activephases, [], log) in
  let cm := {| constraints := [] |} in
  let fixed_indices := [] in
  '(cm, fixed_indices) ←
    phase_fraction_balance activephases phase_col main_indices (cm, fixed_indices);
  '(conditions, (cm, fixed_indices)) ←
    for_each_try (sublattice_phase_body main_indices) phase_col
      (conditions, (cm, fixed_indices));
  let cm := for_each (mass_balance_body phase_col) (xfrac conditions) cm in
  let log := for_each log_constraint (constraints cm) log in
  '(jac_g_trees, log) ←
    for_each_try (jacobian_variable_body cm) main_indices ([], log);
  let hess_sparsity_structure :=
    for_each (objective_sparsity_body main_indices) comp_sets ∅ in
  let '(constraint_hessian_data, hess_sparsity_structure, log) :=
    for_each (hessian_variable_body jac_g_trees) main_indices
      (∅, hess_sparsity_structure, log) in
  let log := log ++ [LOG_SEV debug [LStr "function exit"]] in
  Some ({| conditions := conditions; phase_col := phase_col; main_ss := main_ss;
           main_indices := main_indices; comp_sets := comp_sets; cm := cm;
           fixed_indices := fixed_indices; jac_g_trees := jac_g_trees;
           constraint_hessian_data := constraint_hessian_data;
           hess_sparsity_structure := hess_sparsity_structure |},
        log).

End GibbsOpt.

(** ** The passes of the constructor as functions of its inputs

    These definitions say, without loops and mutable state, what each
    pass of the constructor computes; the lemmas below prove that the
    constructor computes just that. *)

Section Passes.
Context `{Collaborators}.

(** The phases of the database whose status in the conditions is ENTERED. *)
Definition entered_phases (DB : Database) (conds : evalconditions) : StdMap.t Phase :=
  for_each (select_phase conds) (get_phases DB) [].

(** The composition set of a phase when the constructor returns: the
    minimum is its starting point when the locator finds exactly one. *)
Definition comp_set_of (pset : parameter_set) (ss : sublattice_set)
    (indices : index_bimap) (conds : evalconditions) (i : string * Phase)
    : string * CompositionSet :=
  let new_set := CompositionSet_ctor i.2 pset ss indices in
  (i.1,
   match LocateMinima new_set ss conds with
   | [minimum] => set_starting_point new_set minimum
   | _ => new_set
   end).

Definition minima_record (pset : parameter_set) (ss : sublattice_set)
    (indices : index_bimap) (conds : evalconditions) (i : string * Phase)
    : log_record :=
  LOG_SEV debug
    [LSize (length (LocateMinima (CompositionSet_ctor i.2 pset ss indices) ss conds));
     LStr " minima detected"].

(** The tracked species of a sublattice: its species that are among the
    elements of the conditions. *)
Definition tracked (conds : evalconditions) (subl : Sublattice) : list string :=
  filter (λ k, k ∈ elements conds) (get_species subl).

(** The (phase, sublattice) pairs, each sublattice with its position. *)
Definition sublattice_pairs (phase_col : StdMap.t Phase)
    : list (string * (nat * Sublattice)) :=
  phase_col ≫= λ i, pair i.1 <$> enumerate (get_sublattices i.2).

Definition phase_fraction_name (phase_name : string) : string :=
  phase_name +:+ "_FRAC".

Definition site_fraction_name (phase_name : string) (j : nat) (species : string)
    : string :=
  phase_name +:+ "_" +:+ decimal j +:+ "_" +:+ species.

(** The constraints and the fixed indices that come from the number of
    phases. *)
Definition phase_fraction_part (phase_col : StdMap.t Phase) (indices : index_bimap)
    : option (list (Constraint Phase) * list Z) :=
  match phase_col with
  | [] => Some ([], [])
  | [(first, _)] =>
      index ← left_at (phase_fraction_name first) indices; Some ([], [index])
  | _ :: _ :: _ => Some ([PhaseFractionBalanceConstraint phase_col], [])
  end.

(** The constraints and the fixed indices that come from one
    (phase, sublattice) pair. *)
Definition sublattice_part (conds : evalconditions) (indices : index_bimap)
    (p : string * (nat * Sublattice)) : option (list (Constraint Phase) * list Z) :=
  match tracked conds p.2.2 with
  | [] => Some ([], [])
  | [species] =>
      index ← left_at (site_fraction_name p.1 p.2.1 species) indices;
      Some ([], [index])
  | (_ :: _ :: _) as subl_list =>
      Some ([SublatticeBalanceConstraint p.1 p.2.1 subl_list], [])
  end.

Definition mass_balance_part (phase_col : StdMap.t Phase) (conds : evalconditions)
    : list (Constraint Phase) :=
  (λ i : string * double, MassBalanceConstraint phase_col i.1 i.2) <$> xfrac conds.

(** The result of a pass that adds the contributions [outs]. *)
Definition add_parts (cm : ConstraintManager Phase) (fx : list Z)
    (outs : list (list (Constraint Phase) * list Z))
    : ConstraintManager Phase * list Z :=
  ({| constraints := constraints cm ++ mjoin (fst <$> outs) |},
   fx ++ mjoin (snd <$> outs)).

(** The value of a tree that is a numeric constant. *)
Definition constant_value (ut : utree) : option double :=
  match ut with
  | int_type i => Some (double_of_int i)
  | double_type d => Some d
  | _ => None
  end.

(** The zero-detection test of section 4.4 of the spec, in its words:
    both sides are differentiated and simplified; the test fires when
    both results are numeric constants and the constants are equal. *)
Definition zero_detected (c : Constraint Phase) (v : string) : bool :=
  match constant_value (simplify_utree (differentiate_utree (lhs c) v)),
        constant_value (simplify_utree (differentiate_utree (rhs c) v)) with
  | Some a, Some b => double_eq a b
  | _, _ => false
  end.

(** The tree of a Jacobian entry: derivative of the left-hand side minus
    derivative of the right-hand side, both simplified. *)
Definition jacobian_tree (c : Constraint Phase) (v : string) : utree :=
  list_type [string_type "-";
             simplify_utree (differentiate_utree (lhs c) v);
             simplify_utree (differentiate_utree (rhs c) v)].

Definition jacobian_entry_for (i : string * Z) (j : nat * Constraint Phase)
    : jacobian_entry :=
  {| cons_index := Z.of_nat j.1; var_index := i.2; jac_flag := false;
     ast := jacobian_tree j.2 i.1 |}.

Definition jacobian_record (i : string * Z) (j : nat * Constraint Phase) : log_record :=
  LOG_SEV debug [LStr "Jacobian of constraint  "; LInt (Z.of_nat j.1);
                 LStr " wrt variable "; LInt i.2; LStr " pre-calculated"].

(** The (variable, constraint) pairs in the order of the loops. *)
Definition jacobian_pairs (indices : index_bimap) (cons : list (Constraint Phase))
    : list ((string * Z) * (nat * Constraint Phase)) :=
  indices ≫= λ i, pair i <$> enumerate cons.

Definition retained (p : (string * Z) * (nat * Constraint Phase)) : Prop :=
  zero_detected p.2.2 p.1.1 = false.

#[global] Instance retained_dec p : Decision (retained p).
Proof. unfold retained. apply _. Defined.

Definition jacobian_entries (indices : index_bimap) (cons : list (Constraint Phase))
    : list jacobian_entry :=
  (λ p, jacobian_entry_for p.1 p.2) <$> filter retained (jacobian_pairs indices cons).

(** The record logged for a Jacobian entry, from the indices of the
    entry. *)
Definition entry_record (e : jacobian_entry) : log_record :=
  LOG_SEV debug [LStr "Jacobian of constraint  "; LInt (cons_index e);
                 LStr " wrt variable "; LInt (var_index e); LStr " pre-calculated"].

Definition jacobian_records (indices : index_bimap) (cons : list (Constraint Phase))
    : list log_record :=
  (λ p, jacobian_record p.1 p.2) <$> filter retained (jacobian_pairs indices cons).

(** The sparsity structure of the objective: the union of the structures
    of the composition sets. *)
Definition objective_sparsity (indices : index_bimap)
    (comp_sets : StdMap.t CompositionSet) : gset (list Z) :=
  for_each (objective_sparsity_body indices) comp_sets ∅.

(** The (variable, Jacobian entry) pairs in the order of the loops. *)
Definition hessian_pairs (indices : index_bimap) (jac : list jacobian_entry)
    : list ((string * Z) * jacobian_entry) :=
  indices ≫= λ i, pair i <$> jac.

(** The second derivative computed for a pair, and whether the loop body
    stores it. *)
Definition second_derivative (p : (string * Z) * jacobian_entry) : utree :=
  differentiate_utree (ast p.2) p.1.1.

Definition stored (p : (string * Z) * jacobian_entry) : Prop :=
  p.1.2 ≤ var_index p.2 ∧ is_zero_tree (second_derivative p) = false.

#[global] Instance stored_dec p : Decision (stored p).
Proof. unfold stored. apply _. Defined.

(** The tree recorded for a constraint in the entry of a pair of
    variable indices, when there is one. *)
Definition hessian_ast (data : hessian_set) (row col cons : Z) : option utree :=
  data !! (row, col) ≫= λ asts, asts !! cons.

Definition hessian_record (p : (string * Z) * jacobian_entry) : log_record :=
  LOG_SEV debug [LStr "Hessian of constraint  "; LInt (cons_index p.2);
                 LStr " ("; LInt p.1.2; LStr ","; LInt (var_index p.2);
                 LStr ") pre-calculated"].

(** One iteration of the second-derivative loop. *)
Definition hessian_step (p : (string * Z) * jacobian_entry)
    (s : hessian_set * gset (list Z) * list log_record)
    : hessian_set * gset (list Z) * list log_record :=
  if decide (stored p) then
    let key := (p.1.2, var_index p.2) in
    (<[key := <[cons_index p.2 := second_derivative p]> (default ∅ (s.1.1 !! key))]> s.1.1,
     {[ [p.1.2; var_index p.2] ]} ∪ s.1.2,
     s.2 ++ [hessian_record p])
  else s.

Definition variable_record (i : string * Z) : log_record :=
  LOG_SEV debug [LStr "Variable "; LInt i.2; LStr ": "; LStr i.1].

Definition constraint_records (i : Constraint Phase) : list log_record :=
  [LOG_SEV debug [LStr "Constraint "; LStr (name i); LStr " LHS: "; LTree (lhs i)];
   LOG_SEV debug [LStr "Constraint "; LStr (name i); LStr " RHS: "; LTree (rhs i)]].

(** The two records of a configuration that cannot be solved. *)
Definition no_components : log_record :=
  LOG_SEV critical [LStr "No components entered!"].

Definition no_phases : log_record :=
  LOG_SEV critical [LStr "No phases found!"].

Definition configuration_records (conds : evalconditions) (phase_col : StdMap.t Phase)
    : list log_record :=
  (if bool_decide (elements conds = []) then [no_components] else []) ++
  (if bool_decide (phase_col = []) then [no_phases] else []).

(** The constructor, pass by pass. *)
Definition assemble (DB : Database) (conds : evalconditions)
    : option (GibbsOpt * list log_record) :=
  let pc := entered_phases DB conds in
  let ss := (build_variable_map pc conds).1 in
  let idx := (build_variable_map pc conds).2 in
  let pset := get_parameter_set DB in
  pf ← phase_fraction_part pc idx;
  outs ← mapM (sublattice_part conds idx) (sublattice_pairs pc);
  let cons := pf.1 ++ mjoin (fst <$> outs) ++ mass_balance_part pc conds in
  let fixed := pf.2 ++ mjoin (snd <$> outs) in
  let jac := jacobian_entries idx cons in
  let comp := comp_set_of pset ss idx conds <$> pc in
  let log :=
    [LOG_CHANNEL_SEV "optimizer" debug [LStr "enter ctor"]] ++
    configuration_records conds pc ++
    (variable_record <$> idx) ++
    (minima_record pset ss idx conds <$> pc) ++
    (cons ≫= constraint_records) ++
    jacobian_records idx cons in
  let h := for_each hessian_step (hessian_pairs idx jac)
             (∅, objective_sparsity idx comp, log) in
  Some ({| conditions := conds; phase_col := pc; main_ss := ss;
           main_indices := idx; comp_sets := comp;
           cm := {| constraints := cons |}; fixed_indices := fixed;
           jac_g_trees := jac;
           constraint_hessian_data := h.1.1;
           hess_sparsity_structure := h.1.2 |},
        h.2 ++ [LOG_SEV debug [LStr "function exit"]]).

(** The keys of the data and the elements of the sparsity structure. *)
Definition triangular (sp0 : gset (list Z))
    (s : hessian_set * gset (list Z) * list log_record) : Prop :=
  (∀ row col, is_Some (s.1.1 !! (row, col)) → row ≤ col) ∧
  (∀ x, x ∈ s.1.2 →
     x ∈ sp0 ∨
     ∃ row col, x = [row; col] ∧ row ≤ col ∧ is_Some (s.1.1 !! (row, col))).

(** The class of a constraint. *)
Definition is_phase_fraction_balance (c : Constraint Phase) : bool :=
  match c with PhaseFractionBalanceConstraint _ => true | _ => false end.

Definition is_sublattice_balance (c : Constraint Phase) : bool :=
  match c with SublatticeBalanceConstraint _ _ _ => true | _ => false end.

Definition is_mass_balance (c : Constraint Phase) : bool :=
  match c with MassBalanceConstraint _ _ _ => true | _ => false end.

(** The sublattice balance of one (phase, sublattice) pair. *)
Definition is_sublattice_balance_of (phase_name : string) (j : nat)
    (c : Constraint Phase) : bool :=
  match c with
  | SublatticeBalanceConstraint n k _ => bool_decide (n = phase_name ∧ k = j)
  | _ => false
  end.

(** What a (phase, sublattice) pair adds to the constraints and to the
    fixed indices, by the number of its tracked species. *)
Definition sublattice_case (conds : evalconditions) (indices : index_bimap)
    (p : string * (nat * Sublattice)) (out : list (Constraint Phase) * list Z) : Prop :=
  let subl_list := tracked conds p.2.2 in
  (subl_list = [] → out = ([], [])) ∧
  (∀ species, subl_list = [species] →
     ∃ index, left_at (site_fraction_name p.1 p.2.1 species) indices = Some index ∧
              out = ([], [index])) ∧
  ((1 < length subl_list)%nat →
     out = ([SublatticeBalanceConstraint p.1 p.2.1 subl_list], [])).

(** The names that the constructor looks up in the index map. *)
Definition looked_up (phase_col : StdMap.t Phase) (conds : evalconditions)
    : list string :=
  match phase_col with
  | [(first, _)] => [phase_fraction_name first]
  | _ => []
  end ++
  (sublattice_pairs phase_col ≫= λ p,
     match tracked conds p.2.2 with
     | [species] => [site_fraction_name p.1 p.2.1 species]
     | _ => []
     end).

(** Every such name is in the index map that [build_variable_map] fills. *)
Definition variables_known (DB : Database) (conds : evalconditions) : Prop :=
  let pc := entered_phases DB conds in
  Forall (λ n, is_Some (left_at n (build_variable_map pc conds).2))
    (looked_up pc conds).

(** Modelled from the spec: [build_variable_map] is declared outside the
    given source. Section 4.1 gives the names of the index map it fills:
    one phase-fraction variable name for every active phase and one
    site-fraction variable name for every (phase, sublattice, tracked
    species) triple. *)
Definition variable_names (phase_range : StdMap.t Phase) (conds : evalconditions)
    : list string :=
  phase_range ≫= λ i,
    phase_fraction_name i.1 ::
    (enumerate (get_sublattices i.2) ≫= λ j,
       site_fraction_name i.1 j.1 <$> tracked conds j.2).

(** Modelled from the spec: [build_variable_map] is declared outside the
    given source. Section 4.1: every one of these names is in the index
    map that it fills. *)
Definition build_variable_map_registers : Prop :=
  ∀ (phase_range : StdMap.t Phase) (conds : evalconditions) (n : string),
    n ∈ variable_names phase_range conds →
    is_Some (left_at n (build_variable_map phase_range conds).2).

(** The Hessian data and the sparsity structure that the last two passes
    leave. *)
Definition hessian_pass (indices : index_bimap) (jac : list jacobian_entry)
    (comp_sets : StdMap.t CompositionSet) : hessian_set * gset (list Z) :=
  (for_each hessian_step (hessian_pairs indices jac)
     (∅, objective_sparsity indices comp_sets, [])).1.

End Passes.

(** ** A small instance of the collaborators

    A database whose phases are lists of sublattices, each a list of
    species, with a symbolic engine for sums, differences and products of
    two operands. It is used to run the constructor on examples. *)

Module Demo.

Definition DPhase : Type := list (list string).

Record DCompositionSet : Type := {
  dcs_phase : DPhase;
  dcs_starting_point : option (list double)
}.

(** The variable names of one phase, in the order of section 4.1 of the
    spec: the phase fraction, then a site fraction for every tracked
    species of every sublattice. *)
Definition phase_variables (conds : evalconditions) (i : string * DPhase) : list string :=
  (i.1 +:+ "_FRAC") ::
  flat_map (λ j : nat * list string,
              map (λ k, i.1 +:+ "_" +:+ decimal j.1 +:+ "_" +:+ k)
                (filter (λ k, existsb (String.eqb k) (elements conds)) j.2))
    (enumerate i.2).

Definition insert_variable (name : string) (s : index_bimap * Z) : index_bimap * Z :=
  (StdMap.emplace name s.2 s.1, s.2 + 1).

Definition d_build_variable_map (phase_range : StdMap.t DPhase)
    (conds : evalconditions) : unit * index_bimap :=
  (tt, (for_each insert_variable (flat_map (phase_variables conds) phase_range) ([], 0)).1).

Definition binary (op : string) (a b : utree) : utree :=
  list_type [string_type op; a; b].

Fixpoint d_differentiate (ut : utree) (v : string) : utree :=
  match ut with
  | string_type s => if String.eqb s v then int_type 1 else int_type 0
  | list_type [string_type op; a; b] =>
      if String.eqb op "+" || String.eqb op "-"
      then binary op (d_differentiate a v) (d_differentiate b v)
      else if String.eqb op "*"
      then binary "+" (binary "*" (d_differentiate a v) b)
                      (binary "*" a (d_differentiate b v))
      else int_type 0
  | _ => int_type 0
  end.

Definition fold_constants (op : string) (a b : utree) : utree :=
  match a, b with
  | int_type x, int_type y =>
      if String.eqb op "+" then int_type (x + y)
      else if String.eqb op "-" then int_type (x - y)
      else if String.eqb op "*" then int_type (x * y)
      else binary op a b
  | int_type 0, _ =>
      if String.eqb op "*" then int_type 0
      else if String.eqb op "+" then b
      else binary op a b
  | _, int_type 0 =>
      if String.eqb op "*" then int_type 0
      else if String.eqb op "+" || String.eqb op "-" then a
      else binary op a b
  | _, _ => binary op a b
  end.

Fixpoint d_simplify (ut : utree) : utree :=
  match ut with
  | list_type [string_type op; a; b] => fold_constants op (d_simplify a) (d_simplify b)
  | _ => ut
  end.

Definition sum_of (terms : list utree) : utree :=
  match terms with
  | [] => int_type 0
  | t0 :: rest => fold_left (binary "+") rest t0
  end.

Definition d_lhs (c : Constraint DPhase) : utree :=
  match c with
  | PhaseFractionBalanceConstraint range =>
      sum_of (map (λ i : string * DPhase, string_type (i.1 +:+ "_FRAC")) range)
  | SublatticeBalanceConstraint p j species =>
      sum_of (map (λ k, string_type (p +:+ "_" +:+ decimal j +:+ "_" +:+ k)) species)
  | MassBalanceConstraint range e _ =>
      sum_of (map (λ i : string * DPhase,
                     binary "*" (string_type (i.1 +:+ "_FRAC"))
                                (string_type (i.1 +:+ "_0_" +:+ e))) range)
  end.

Definition d_rhs (c : Constraint DPhase) : utree :=
  match c with
  | MassBalanceConstraint _ _ x => double_type x
  | _ => int_type 1
  end.

Definition d_name (c : Constraint DPhase) : string :=
  match c with
  | PhaseFractionBalanceConstraint _ => "PhaseFractionBalance"
  | SublatticeBalanceConstraint p j _ => p +:+ "_" +:+ decimal j +:+ "_SublatticeBalance"
  | MassBalanceConstraint _ e _ => e +:+ "_MassBalance"
  end.

(** One minimum for every sublattice of the phase. *)
Definition d_LocateMinima (c : DCompositionSet) (_ : unit) (_ : evalconditions)
    : list (list double) :=
  map (λ subl, map (λ _, double_of_int 0) subl) (dcs_phase c).

#[export] Instance collaborators : Collaborators := {|
  Phase := DPhase;
  Sublattice := list string;
  get_sublattices := λ p, p;
  get_species := λ s, s;
  Database := StdMap.t DPhase;
  get_phases := λ db, db;
  parameter_set := unit;
  get_parameter_set := λ _, tt;
  PhaseStatus_init := ENTERED;
  sublattice_set := unit;
  build_variable_map := d_build_variable_map;
  CompositionSet := DCompositionSet;
  CompositionSet_ctor := λ p _ _ _, {| dcs_phase := p; dcs_starting_point := None |};
  set_starting_point := λ c x, {| dcs_phase := dcs_phase c; dcs_starting_point := Some x |};
  hessian_sparsity_structure := λ _ _, {[ [0; 0] ]};
  LocateMinima := d_LocateMinima;
  differentiate_utree := d_differentiate;
  simplify_utree := d_simplify;
  name := d_name;
  lhs := d_lhs;
  rhs := d_rhs
|}.

Definition half : double := S754_finite false 4503599627370496 (-53).

(** One phase with one sublattice of two tracked species, and a target
    mole fraction for the first of them. *)
Definition db1 : StdMap.t DPhase := [("LIQ", [["A"; "B"]])].
Definition state1 : evalconditions :=
  {| elements := ["A"; "B"]; phases := [("LIQ", ENTERED)]; xfrac := [("A", half)] |}.

(** Three phases, one of them not entered; sublattices with two, one and
    no tracked species; a phase with two sublattices has two minima. *)
Definition db2 : StdMap.t DPhase :=
  [("ALPHA", [["A"; "B"]]); ("BETA", [["A"; "C"]; ["C"]]); ("GAMMA", [["A"]])].
Definition state2 : evalconditions :=
  {| elements := ["A"; "B"];
     phases := [("ALPHA", ENTERED); ("BETA", ENTERED); ("GAMMA", NOT_ENTERED)];
     xfrac := [("A", half); ("B", half)] |}.

(** No element is tracked. *)
Definition state3 : evalconditions :=
  {| elements := []; phases := [("LIQ", ENTERED)]; xfrac := [] |}.

(** No phase is entered. *)
Definition state4 : evalconditions :=
  {| elements := ["A"; "B"]; phases := [("LIQ", NOT_ENTERED)]; xfrac := [] |}.

(** No element is tracked, and a target mole fraction is asked for. *)
Definition state6 : evalconditions :=
  {| elements := []; phases := [("LIQ", ENTERED)]; xfrac := [("A", half)] |}.

(** A phase without sublattices: the locator finds no minimum for it. *)
Definition db5 : StdMap.t DPhase := [("VOID", [])].
Definition state5 : evalconditions :=
  {| elements := ["A"]; phases := [("VOID", ENTERED)]; xfrac := [] |}.

(** The constructor on these inputs. *)
Definition assembled1 : option (GibbsOpt * list log_record) :=
  Eval vm_compute in GibbsOpt_ctor db1 state1.
Definition assembled2 : option (GibbsOpt * list log_record) :=
  Eval vm_compute in GibbsOpt_ctor db2 state2.
Definition assembled5 : option (GibbsOpt * list log_record) :=
  Eval vm_compute in GibbsOpt_ctor db5 state5.

End Demo.

(** ** Facts on loops *)

Lemma for_each_app {A S : Type} (body : A → S → S) (c1 c2 : list A) (s : S) :
  for_each body (c1 ++ c2) s = for_each body c2 (for_each body c1 s).
Proof. unfold for_each. apply fold_left_app. Qed.

Lemma for_each_cons {A S : Type} (body : A → S → S) (i : A) (c : list A) (s : S) :
  for_each body (i :: c) s = for_each body c (body i s).
Proof. reflexivity. Qed.

(** A loop that appends to a list. *)
Lemma for_each_append {A B : Type} (f : A → list B) (c : list A) (l : list B) :
  for_each (λ i l, l ++ f i) c l = l ++ (c ≫= f).
Proof.
  revert l. induction c as [|i c IH]; intros l.
  - simpl. by rewrite app_nil_r.
  - rewrite for_each_cons, IH. simpl. by rewrite app_assoc.
Qed.

(** A loop over the pairs of two nested loops. *)
Lemma for_each_nested {A B S : Type} (body : A → B → S → S) (c : list A)
    (d : list B) (s : S) :
  for_each (λ i, for_each (body i) d) c s =
  for_each (λ p, body p.1 p.2) (c ≫= λ i, pair i <$> d) s.
Proof.
  revert s. induction c as [|i c IH]; intros s; [done|].
  rewrite for_each_cons, IH. simpl. rewrite for_each_app. f_equal.
  generalize s. clear. induction d as [|j d IH]; intros s; [done|].
  rewrite fmap_cons, !for_each_cons. apply IH.
Qed.

(** An invariant of a loop. *)
Lemma for_each_invariant {A S : Type} (P : S → Prop) (body : A → S → S)
    (c : list A) (s : S) :
  P s → (∀ i s, i ∈ c → P s → P (body i s)) → P (for_each body c s).
Proof.
  revert s. induction c as [|i c IH]; intros s Hs Hbody; [done|].
  rewrite for_each_cons. apply IH.
  - apply Hbody; [left|done].
  - intros i' s' Hi'. apply Hbody. by right.
Qed.

Lemma enumerate_from_lookup {A : Type} (c : list A) (n k : nat) (x : A) :
  (k, x) ∈ combine (seq n (length c)) c ↔ (n ≤ k)%nat ∧ c !! (k - n)%nat = Some x.
Proof.
  revert n. induction c as [|y c IH]; intros n; simpl.
  - split; [by intros ?%elem_of_nil | by intros [_ ?]].
  - rewrite elem_of_cons, IH. split.
    + intros [[= -> ->]|[Hle Hk]].
      * split; [lia|]. by replace (n - n)%nat with 0%nat by lia.
      * split; [lia|]. by replace (k - n)%nat with (S (k - S n)) by lia.
    + intros [Hle Hk]. destruct (decide (k = n)) as [->|Hne].
      * left. replace (n - n)%nat with 0%nat in Hk by lia. simpl in Hk. congruence.
      * right. split; [lia|].
        by replace (k - n)%nat with (S (k - S n)) in Hk by lia.
Qed.

(** The elements of [enumerate c] are the elements of [c] with their
    positions. *)
Lemma elem_of_enumerate {A : Type} (c : list A) (k : nat) (x : A) :
  (k, x) ∈ enumerate c ↔ c !! k = Some x.
Proof.
  unfold enumerate. rewrite enumerate_from_lookup.
  replace (k - 0)%nat with k by lia. intuition lia.
Qed.

(** ** Facts on [std::map] *)

Section StdMapFacts.
Context {V : Type}.
Implicit Types (m : StdMap.t V) (k : string) (v : V).

Lemma key_lt_trans a b c :
  StdMap.key_lt a b → StdMap.key_lt b c → StdMap.key_lt a c.
Proof.
  unfold StdMap.key_lt. intros Hab Hbc.
  apply String_as_OT.cmp_lt. apply String_as_OT.cmp_lt in Hab, Hbc.
  by eapply String_as_OT.lt_trans.
Qed.

Lemma key_lt_irrefl a : ¬ StdMap.key_lt a a.
Proof.
  unfold StdMap.key_lt. intros Ha. apply String_as_OT.cmp_lt in Ha.
  by apply String_as_OT.lt_not_eq in Ha.
Qed.

Lemma compare_Gt_lt a b : String.compare a b = Gt → StdMap.key_lt b a.
Proof.
  unfold StdMap.key_lt. intros Hab. rewrite String.compare_antisym, Hab. done.
Qed.

Lemma key_lt_compare_Gt a b : StdMap.key_lt a b → String.compare b a = Gt.
Proof.
  unfold StdMap.key_lt. intros Hab. rewrite String.compare_antisym, Hab. done.
Qed.

Lemma find_None k m : StdMap.find k m = None ↔ k ∉ StdMap.keys m.
Proof.
  induction m as [|[k' v'] m IH]; simpl.
  - split; [intros _; apply not_elem_of_nil | done].
  - unfold StdMap.keys in *. simpl. rewrite not_elem_of_cons.
    destruct (String.eqb_spec k k') as [->|Hne]; [naive_solver|].
    rewrite IH. naive_solver.
Qed.

Lemma find_NoDup k v m :
  NoDup (StdMap.keys m) → (k, v) ∈ m → StdMap.find k m = Some v.
Proof.
  unfold StdMap.keys.
  induction m as [|[k' v'] m IH]; simpl; [by intros _ ?%elem_of_nil|].
  intros [Hk' Hnd]%NoDup_cons [[= -> ->]|Hin]%elem_of_cons.
  - by rewrite String.eqb_refl.
  - destruct (String.eqb_spec k k') as [->|Hne]; [|by apply IH].
    exfalso. apply Hk'. apply list_elem_of_fmap. by exists (k', v).
Qed.

Lemma sorted_NoDup m : StdMap.sorted m → NoDup (StdMap.keys m).
Proof.
  unfold StdMap.sorted. generalize (StdMap.keys m). intros l.
  induction 1 as [|a l Hs IH Hall]; constructor; [|done].
  intros Ha. rewrite Forall_forall in Hall.
  apply (key_lt_irrefl a). by apply Hall.
Qed.

Lemma sorted_app_inv m k v m' :
  StdMap.sorted (m ++ (k, v) :: m') →
  StdMap.sorted m ∧ Forall (λ k', StdMap.key_lt k' k) (StdMap.keys m) ∧
  k ∉ StdMap.keys m.
Proof.
  unfold StdMap.sorted, StdMap.keys.
  induction m as [|[k0 v0] m IH]; simpl.
  - intros _. split_and!; [constructor|constructor|apply not_elem_of_nil].
  - intros [Hs Hall]%StronglySorted_inv.
    destruct (IH Hs) as (Hs' & Hlt & Hnin).
    rewrite fmap_app, Forall_app in Hall. simpl in Hall.
    destruct Hall as [Hall1 [Hk0 _]%Forall_cons].
    split_and!.
    + by constructor.
    + by constructor.
    + rewrite not_elem_of_cons. split; [|done].
      intros ->. by apply (key_lt_irrefl k0).
Qed.

Lemma assign_keys k' k v m :
  k' ∈ StdMap.keys (StdMap.assign k v m) ↔ k' = k ∨ k' ∈ StdMap.keys m.
Proof.
  unfold StdMap.keys.
  induction m as [|[k0 v0] m IH]; simpl.
  - rewrite list_elem_of_singleton.
    split; [by left | by intros [?|?%elem_of_nil]].
  - destruct (String.compare k k0) eqn:Hc; simpl.
    + apply String.compare_eq_iff in Hc as ->. rewrite !elem_of_cons. naive_solver.
    + rewrite !elem_of_cons. simpl. naive_solver.
    + rewrite !elem_of_cons, IH. naive_solver.
Qed.

Lemma assign_elem (x : string * V) k v m :
  x ∈ StdMap.assign k v m → x = (k, v) ∨ x ∈ m.
Proof.
  induction m as [|[k0 v0] m IH]; simpl.
  - rewrite list_elem_of_singleton. naive_solver.
  - destruct (String.compare k k0) eqn:Hc; rewrite !elem_of_cons; naive_solver.
Qed.

Lemma assign_sorted k v m : StdMap.sorted m → StdMap.sorted (StdMap.assign k v m).
Proof.
  unfold StdMap.sorted.
  induction m as [|[k0 v0] m IH]; simpl.
  - intros _. repeat constructor.
  - intros [Hs Hall]%StronglySorted_inv.
    destruct (String.compare k k0) eqn:Hc; simpl.
    + apply String.compare_eq_iff in Hc as ->. by constructor.
    + constructor; [by constructor|].
      constructor; [done|].
      eapply Forall_impl; [exact Hall|]. intros k1 Hk1. by eapply key_lt_trans.
    + constructor; [by apply IH|].
      apply Forall_forall. intros k1 Hk1.
      apply assign_keys in Hk1 as [->|Hk1]; [by apply compare_Gt_lt|].
      rewrite Forall_forall in Hall. by apply Hall.
Qed.

Lemma emplace_snoc k v m :
  Forall (λ k', StdMap.key_lt k' k) (StdMap.keys m) →
  StdMap.emplace k v m = m ++ [(k, v)].
Proof.
  unfold StdMap.keys.
  induction m as [|[k0 v0] m IH]; simpl; [done|].
  intros [Hk0 Hall]%Forall_cons. simpl in Hk0.
  rewrite (key_lt_compare_Gt _ _ Hk0). by rewrite IH.
Qed.

Lemma modify_snoc k (f : V → V) v m :
  k ∉ StdMap.keys m →
  StdMap.modify k f (m ++ [(k, v)]) = m ++ [(k, f v)].
Proof.
  unfold StdMap.keys.
  induction m as [|[k0 v0] m IH]; simpl.
  - intros _. by rewrite String.eqb_refl.
  - intros [Hne Hnin]%not_elem_of_cons.
    apply String.eqb_neq in Hne as ->. by rewrite IH.
Qed.

Lemma subscript_present (dflt : V) k v m :
  StdMap.find k m = Some v → StdMap.subscript dflt k m = (v, m).
Proof. unfold StdMap.subscript. by intros ->. Qed.

End StdMapFacts.

(** ** The passes computed by the constructor *)

Section PassFacts.
Context `{Collaborators}.

Lemma set_phases_id (conds : evalconditions) : set_phases conds (phases conds) = conds.
Proof. by destruct conds. Qed.

Lemma cm_eta (cm : ConstraintManager Phase) :
  {| constraints := constraints cm |} = cm.
Proof. by destruct cm. Qed.

(** *** The entered phases *)

Lemma select_phase_sorted conds i m :
  StdMap.sorted m → StdMap.sorted (select_phase conds i m).
Proof.
  intros Hs. unfold select_phase.
  destruct (StdMap.find i.1 (phases conds)) as [status|]; [|done].
  case_bool_decide; [by apply assign_sorted|done].
Qed.

Lemma entered_phases_sorted DB conds : StdMap.sorted (entered_phases DB conds).
Proof.
  unfold entered_phases.
  apply (for_each_invariant StdMap.sorted); [constructor|].
  intros i m _. apply select_phase_sorted.
Qed.

Lemma entered_phases_NoDup DB conds : NoDup (StdMap.keys (entered_phases DB conds)).
Proof. apply sorted_NoDup, entered_phases_sorted. Qed.

(** Every phase of [phase_col] is a phase of the database whose status
    is ENTERED. *)
Lemma entered_phases_elem DB conds k ph :
  (k, ph) ∈ entered_phases DB conds →
  StdMap.find k (phases conds) = Some ENTERED ∧ (k, ph) ∈ get_phases DB.
Proof.
  revert k ph. unfold entered_phases.
  apply (for_each_invariant
    (λ m, ∀ k ph, (k, ph) ∈ m →
       StdMap.find k (phases conds) = Some ENTERED ∧ (k, ph) ∈ get_phases DB)).
  - by intros k ph ?%elem_of_nil.
  - intros [k0 ph0] m Hi IH k ph. unfold select_phase. simpl.
    destruct (StdMap.find k0 (phases conds)) as [status|] eqn:Hst; [|by apply IH].
    case_bool_decide as Hent; [|by apply IH]. subst status.
    intros [[= -> ->]|Hin]%assign_elem; [done|by apply IH].
Qed.

Lemma select_phase_keys conds i m k :
  k ∈ StdMap.keys m → k ∈ StdMap.keys (select_phase conds i m).
Proof.
  intros Hk. unfold select_phase.
  destruct (StdMap.find i.1 (phases conds)) as [status|]; [|done].
  case_bool_decide; [|done]. apply assign_keys. by right.
Qed.

Lemma select_phases_keys conds c m k :
  k ∈ StdMap.keys m → k ∈ StdMap.keys (for_each (select_phase conds) c m).
Proof.
  intros Hk. apply (for_each_invariant (λ m, k ∈ StdMap.keys m)); [done|].
  intros i m' _. apply select_phase_keys.
Qed.

(** Every phase of the database whose status is ENTERED is in
    [phase_col]. *)
Lemma entered_phases_complete DB conds k ph :
  (k, ph) ∈ get_phases DB → StdMap.find k (phases conds) = Some ENTERED →
  k ∈ StdMap.keys (entered_phases DB conds).
Proof.
  unfold entered_phases. generalize (@nil (string * Phase)).
  induction (get_phases DB) as [|i c IH]; intros m Hin Hst.
  - by apply elem_of_nil in Hin.
  - rewrite for_each_cons. apply elem_of_cons in Hin as [<-|Hin]; [|by apply IH].
    apply select_phases_keys. unfold select_phase. simpl. rewrite Hst.
    rewrite bool_decide_eq_true_2 by done. apply assign_keys. by left.
Qed.

(** *** The composition sets *)

Lemma comp_set_of_keys pset ss idx conds (P : StdMap.t Phase) :
  StdMap.keys (comp_set_of pset ss idx conds <$> P) = StdMap.keys P.
Proof. unfold StdMap.keys. by rewrite <- list_fmap_compose. Qed.

Lemma comp_set_body_eq pset ss idx conds (P : StdMap.t Phase) k ph a log :
  StdMap.sorted (P ++ [(k, ph)]) →
  StdMap.find k (phases conds) = Some ENTERED →
  comp_set_body pset ss idx (k, ph) (conds, a, comp_set_of pset ss idx conds <$> P, log) =
  (conds, a + 1, comp_set_of pset ss idx conds <$> (P ++ [(k, ph)]),
   log ++ [minima_record pset ss idx conds (k, ph)]).
Proof.
  intros Hs Hk. destruct (sorted_app_inv _ _ _ _ Hs) as (_ & Hlt & Hnin).
  unfold comp_set_body. cbn [fst snd].
  rewrite (subscript_present _ _ _ _ Hk), set_phases_id.
  rewrite bool_decide_eq_false_2 by (by intros ?).
  assert (Hf : StdMap.find k (comp_set_of pset ss idx conds <$> P) = None)
    by (apply find_None; by rewrite comp_set_of_keys).
  rewrite Hf. cbn [default].
  rewrite emplace_snoc by (by rewrite comp_set_of_keys).
  rewrite fmap_app. unfold minima_record. cbn [fmap list_fmap fst snd].
  unfold comp_set_of at 3 4 5. cbn [fst snd].
  destruct (LocateMinima (CompositionSet_ctor ph pset ss idx) ss conds)
    as [|minimum [|? ?]]; [done| |done].
  rewrite modify_snoc by (by rewrite comp_set_of_keys). done.
Qed.

Lemma comp_set_loop pset ss idx conds (P R : StdMap.t Phase) a log :
  StdMap.sorted (P ++ R) →
  (∀ i, i ∈ R → StdMap.find i.1 (phases conds) = Some ENTERED) →
  for_each (comp_set_body pset ss idx) R
    (conds, a, comp_set_of pset ss idx conds <$> P, log) =
  (conds, a + Z.of_nat (length R), comp_set_of pset ss idx conds <$> (P ++ R),
   log ++ (minima_record pset ss idx conds <$> R)).
Proof.
  revert P a log.
  induction R as [|[k ph] R IH]; intros P a log Hs Hent.
  - simpl. by rewrite Z.add_0_r, !app_nil_r.
  - rewrite for_each_cons, comp_set_body_eq.
    + rewrite IH.
      * rewrite <- !app_assoc. simpl. do 3 f_equal. lia.
      * by rewrite <- app_assoc.
      * intros i Hi. apply Hent. by right.
    + replace (P ++ (k, ph) :: R) with ((P ++ [(k, ph)]) ++ R) in Hs
        by (by rewrite <- app_assoc).
      revert Hs.
      unfold StdMap.sorted, StdMap.keys. rewrite (fmap_app _ (P ++ _) R).
      intros Hs. by apply StronglySorted_app_1_l in Hs.
    + apply (Hent (k, ph)). left.
Qed.

(** *** The phase-fraction balance *)

Lemma phase_fraction_balance_eq (phase_col : StdMap.t Phase) idx :
  phase_fraction_balance (Z.of_nat (length phase_col)) phase_col idx
    ({| constraints := [] |}, []) =
  (λ cf : list (Constraint Phase) * list Z, ({| constraints := cf.1 |}, cf.2)) <$>
    phase_fraction_part phase_col idx.
Proof.
  unfold phase_fraction_balance, phase_fraction_part, phase_fraction_name.
  destruct phase_col as [|[first ph] [|i phase_col']].
  - done.
  - change (Z.of_nat (length [(first, ph)])) with 1. cbn [Z.ltb Z.eqb Z.compare Pos.compare Pos.compare_cont Pos.eqb].
    by destruct (left_at _ idx).
  - set (n := Z.of_nat (length ((first, ph) :: i :: phase_col'))).
    assert (Hn : 1 < n) by (subst n; rewrite !length_cons; lia).
    rewrite (proj2 (Z.ltb_lt 1 n)) by done.
    rewrite (proj2 (Z.eqb_neq n 1)) by lia.
    done.
Qed.

(** *** The sublattice balance *)

Lemma existsb_eqb_elem (k : string) (l : list string) :
  existsb (String.eqb k) l = bool_decide (k ∈ l).
Proof.
  induction l as [|x l IH].
  - symmetry. apply bool_decide_eq_false, not_elem_of_nil.
  - cbn [existsb]. rewrite IH. destruct (String.eqb_spec k x) as [->|Hne].
    + symmetry. apply bool_decide_eq_true. left.
    + cbn [orb]. apply bool_decide_ext. rewrite elem_of_cons. naive_solver.
Qed.

Lemma tracked_species_loop conds (species acc : list string) :
  for_each (tracked_species conds) species acc =
  acc ++ filter (λ k, k ∈ elements conds) species.
Proof.
  revert acc. induction species as [|k species IH]; intros acc.
  - simpl. by rewrite app_nil_r.
  - rewrite for_each_cons, IH. unfold tracked_species.
    rewrite existsb_eqb_elem, filter_cons.
    case_bool_decide; case_decide; try done.
    by rewrite <- app_assoc.
Qed.

Lemma sublattice_body_eq conds idx phase_name j cm fx :
  sublattice_body conds idx phase_name j (cm, fx) =
  (λ cf : list (Constraint Phase) * list Z,
     ({| constraints := constraints cm ++ cf.1 |}, fx ++ cf.2)) <$>
    sublattice_part conds idx (phase_name, j).
Proof.
  unfold sublattice_body, sublattice_part, site_fraction_name, tracked.
  rewrite tracked_species_loop. simpl.
  destruct (filter _ (get_species j.2)) as [|species [|? ?]]; simpl.
  - by rewrite !app_nil_r, cm_eta.
  - destruct (left_at _ idx); simpl; [|done]. by rewrite !app_nil_r, cm_eta.
  - by rewrite app_nil_r.
Qed.

Lemma mapM_app_option {A B : Type} (f : A → option B) (l1 l2 : list A) :
  mapM f (l1 ++ l2) = k1 ← mapM f l1; k2 ← mapM f l2; Some (k1 ++ k2).
Proof.
  induction l1 as [|x l1 IH]; simpl.
  - by destruct (mapM f l2).
  - destruct (f x) as [y|]; simpl; [|done].
    rewrite IH. destruct (mapM f l1); simpl; [|done].
    by destruct (mapM f l2).
Qed.

Lemma sublattice_loop conds idx phase_name (js : list (nat * Sublattice)) cm fx :
  for_each_try (sublattice_body conds idx phase_name) js (cm, fx) =
  add_parts cm fx <$> mapM (sublattice_part conds idx) (pair phase_name <$> js).
Proof.
  revert cm fx. induction js as [|j js IH]; intros cm fx.
  - simpl. unfold add_parts. simpl. by rewrite !app_nil_r, cm_eta.
  - cbn [for_each_try fmap list_fmap mapM]. rewrite sublattice_body_eq.
    destruct (sublattice_part conds idx (phase_name, j)) as [[c f]|]; simpl; [|done].
    rewrite IH.
    destruct (mapM _ _) as [outs|]; simpl; [|done].
    unfold add_parts. simpl. by rewrite <- !app_assoc.
Qed.

Lemma sublattice_phase_loop conds idx (phase_col : StdMap.t Phase) cm fx :
  (∀ i, i ∈ phase_col → StdMap.find i.1 (phases conds) = Some ENTERED) →
  for_each_try (sublattice_phase_body idx) phase_col (conds, (cm, fx)) =
  (λ outs, (conds, add_parts cm fx outs)) <$>
    mapM (sublattice_part conds idx) (sublattice_pairs phase_col).
Proof.
  revert cm fx. induction phase_col as [|[k ph] phase_col IH]; intros cm fx Hent.
  - simpl. unfold add_parts. simpl. by rewrite !app_nil_r, cm_eta.
  - assert (Hk : StdMap.find k (phases conds) = Some ENTERED)
      by (apply (Hent (k, ph)); left).
    unfold sublattice_pairs. simpl.
    unfold sublattice_phase_body at 1. simpl.
    rewrite (subscript_present _ _ _ _ Hk), set_phases_id.
    rewrite bool_decide_eq_false_2 by (by intros ?).
    rewrite sublattice_loop, mapM_app_option.
    destruct (mapM _ (pair k <$> _)) as [outs1|]; simpl; [|done].
    unfold add_parts at 1. rewrite IH by (intros i Hi; apply Hent; by right).
    fold (sublattice_pairs phase_col).
    destruct (mapM _ (sublattice_pairs phase_col)) as [outs2|]; simpl; [|done].
    unfold add_parts. simpl.
    by rewrite !fmap_app, !join_app, <- !app_assoc.
Qed.

(** *** The mass balance *)

Lemma mass_balance_loop (phase_col : StdMap.t Phase) (xf : StdMap.t double) cm :
  for_each (mass_balance_body phase_col) xf cm =
  {| constraints := constraints cm ++
       ((λ i : string * double, MassBalanceConstraint phase_col i.1 i.2) <$> xf) |}.
Proof.
  revert cm. induction xf as [|i xf IH]; intros cm.
  - simpl. by rewrite app_nil_r, cm_eta.
  - rewrite for_each_cons, IH. simpl. by rewrite <- app_assoc.
Qed.

(** *** The Jacobian *)

Lemma zero_test_eq (l r : utree) :
  (if is_double_or_int l && is_double_or_int r then
     lhsget ← get_double l; rhsget ← get_double r; Some (double_eq lhsget rhsget)
   else Some false) =
  Some match constant_value l, constant_value r with
       | Some a, Some b => double_eq a b
       | _, _ => false
       end.
Proof. by destruct l, r. Qed.

Lemma jacobian_body_eq i j jac log :
  jacobian_body i j (jac, log) =
  Some (if decide (retained (i, j))
        then (jac ++ [jacobian_entry_for i j], log ++ [jacobian_record i j])
        else (jac, log)).
Proof.
  unfold jacobian_body. rewrite zero_test_eq. cbn [mbind option_bind].
  fold (zero_detected j.2 i.1).
  case_decide as Hr; unfold retained in Hr; cbn [fst snd] in Hr.
  - by rewrite Hr.
  - apply not_false_is_true in Hr. by rewrite Hr.
Qed.

Lemma for_each_try_total {A S : Type} (body : A → S → option S) (g : A → S → S)
    (c : list A) (s : S) :
  (∀ i s, body i s = Some (g i s)) → for_each_try body c s = Some (for_each g c s).
Proof.
  intros Hbody. revert s. induction c as [|i c IH]; intros s; [done|].
  cbn [for_each_try]. rewrite Hbody. cbn [mbind option_bind].
  by rewrite IH, for_each_cons.
Qed.

Lemma for_each_ext {A S : Type} (f g : A → S → S) (c : list A) (s : S) :
  (∀ i s, f i s = g i s) → for_each f c s = for_each g c s.
Proof.
  intros Hfg. revert s. induction c as [|i c IH]; intros s; [done|].
  by rewrite !for_each_cons, Hfg, IH.
Qed.

(** A loop that appends to two lists for the elements that pass a test. *)
Lemma for_each_filter_append {A B C : Type} (P : A → Prop) `{∀ x, Decision (P x)}
    (e : A → B) (r : A → C) (c : list A) (a : list B) (b : list C) :
  for_each (λ p s, if decide (P p) then (s.1 ++ [e p], s.2 ++ [r p]) else s) c (a, b) =
  (a ++ (e <$> filter P c), b ++ (r <$> filter P c)).
Proof.
  revert a b. induction c as [|x c IH]; intros a b.
  - simpl. by rewrite !app_nil_r.
  - rewrite for_each_cons, filter_cons. case_decide.
    + cbn [fst snd]. rewrite IH, !fmap_cons, <- !app_assoc. done.
    + apply IH.
Qed.

Lemma jacobian_loop idx (cm : ConstraintManager Phase) log :
  for_each_try (jacobian_variable_body cm) idx ([], log) =
  Some (jacobian_entries idx (constraints cm),
        log ++ jacobian_records idx (constraints cm)).
Proof.
  set (g := λ (p : (string * Z) * (nat * Constraint Phase))
              (s : list jacobian_entry * list log_record),
         if decide (retained p)
         then (s.1 ++ [jacobian_entry_for p.1 p.2], s.2 ++ [jacobian_record p.1 p.2])
         else s).
  rewrite (for_each_try_total _
             (λ i, for_each (λ j, g (i, j)) (enumerate (constraints cm)))).
  - rewrite (for_each_nested (λ i j, g (i, j))).
    rewrite (for_each_ext _ g) by (by intros [? ?] ?).
    unfold g. rewrite for_each_filter_append. done.
  - intros i s. unfold jacobian_variable_body.
    apply for_each_try_total. intros j [jac log']. rewrite jacobian_body_eq.
    unfold g. cbn [fst snd]. by case_decide.
Qed.

(** *** The sparsity structure *)

Lemma objective_sparsity_body_eq idx (i : string * CompositionSet) hs :
  objective_sparsity_body idx i hs = hessian_sparsity_structure i.2 idx ∪ hs.
Proof.
  unfold objective_sparsity_body.
  rewrite <- (list_to_set_elements_L (hessian_sparsity_structure i.2 idx)) at 2.
  generalize (base.elements (hessian_sparsity_structure i.2 idx)). intros l.
  revert hs. induction l as [|x l IH]; intros hs.
  - simpl. set_solver.
  - rewrite for_each_cons, IH. simpl. set_solver.
Qed.

Lemma elem_of_objective_sparsity idx (comp : StdMap.t CompositionSet) x :
  x ∈ objective_sparsity idx comp ↔
  ∃ i, i ∈ comp ∧ x ∈ hessian_sparsity_structure i.2 idx.
Proof.
  unfold objective_sparsity.
  assert (Hgen : ∀ hs, x ∈ for_each (objective_sparsity_body idx) comp hs ↔
                       x ∈ hs ∨ ∃ i, i ∈ comp ∧ x ∈ hessian_sparsity_structure i.2 idx).
  { induction comp as [|i comp IH]; intros hs.
    - simpl. split; [by left|]. intros [?|(i & ?%elem_of_nil & _)]; done.
    - rewrite for_each_cons, IH, objective_sparsity_body_eq, elem_of_union.
      setoid_rewrite elem_of_cons. naive_solver. }
  rewrite Hgen. set_solver.
Qed.

(** *** The Hessian of the constraints *)

Lemma create_then_update (data : gmap (Z * Z) (gmap Z utree)) key c t :
  let data' := match data !! key with
               | None => <[key := ∅]> data
               | Some _ => data
               end in
  <[key := <[c := t]> (default ∅ (data' !! key))]> data' =
  <[key := <[c := t]> (default ∅ (data !! key))]> data.
Proof.
  intros data'. subst data'. destruct (data !! key) as [asts|] eqn:Hd.
  - by rewrite Hd.
  - by rewrite lookup_insert_eq, insert_insert_eq.
Qed.

Lemma hessian_body_eq i j s : hessian_body i j s = hessian_step (i, j) s.
Proof.
  destruct s as [[data sp] log].
  unfold hessian_body, hessian_step.
  case_decide as Hst; unfold stored, second_derivative in Hst; cbn [fst snd] in *.
  - destruct Hst as [Hle Hz].
    destruct (Z.gtb_spec i.2 (var_index j)) as [Hgt|_]; [lia|].
    unfold second_derivative. cbn [fst snd]. rewrite Hz.
    unfold hessian_record. cbn [fst snd]. f_equal. f_equal.
    apply create_then_update.
  - destruct (Z.gtb_spec i.2 (var_index j)) as [Hgt|Hle]; [done|].
    destruct (is_zero_tree _) eqn:Hz; [done|]. by destruct Hst.
Qed.

Lemma hessian_loop idx jac s :
  for_each (hessian_variable_body jac) idx s =
  for_each hessian_step (hessian_pairs idx jac) s.
Proof.
  unfold hessian_variable_body.
  rewrite (for_each_nested hessian_body).
  apply for_each_ext. intros [i j] s'. apply hessian_body_eq.
Qed.

(** *** The constructor *)

Lemma for_each_append_one {A B : Type} (f : A → B) (c : list A) (l : list B) :
  for_each (λ i l, l ++ [f i]) c l = l ++ (f <$> c).
Proof.
  revert l. induction c as [|i c IH]; intros l.
  - simpl. by rewrite app_nil_r.
  - rewrite for_each_cons, IH, <- app_assoc. done.
Qed.

Theorem GibbsOpt_ctor_assemble DB conds : GibbsOpt_ctor DB conds = assemble DB conds.
Proof.
  unfold GibbsOpt_ctor, assemble.
  fold (entered_phases DB conds).
  pose proof (entered_phases_sorted DB conds) as Hsorted.
  assert (Hent : ∀ i, i ∈ entered_phases DB conds →
                      StdMap.find i.1 (phases conds) = Some ENTERED).
  { intros [k ph] Hi. by apply entered_phases_elem in Hi as [? _]. }
  set (pc := entered_phases DB conds) in *.
  destruct (build_variable_map pc conds) as [ss idx]. cbn [fst snd].
  change (for_each log_variable idx) with (for_each (λ i l, l ++ [variable_record i]) idx).
  rewrite for_each_append_one.
  pose proof (comp_set_loop (get_parameter_set DB) ss idx conds [] pc 0) as Hcs.
  cbn [app fmap list_fmap] in Hcs. rewrite Hcs by done. clear Hcs.
  rewrite Z.add_0_l, phase_fraction_balance_eq.
  destruct (phase_fraction_part pc idx) as [[pf_c pf_f]|]; [|done].
  cbn [fmap option_fmap option_map mbind option_bind fst snd].
  rewrite sublattice_phase_loop by done.
  destruct (mapM _ (sublattice_pairs pc)) as [outs|]; [|done].
  cbn [fmap option_fmap option_map mbind option_bind add_parts constraints].
  rewrite mass_balance_loop. cbn [constraints].
  change (for_each log_constraint) with
    (for_each (λ i l, l ++ constraint_records i)).
  rewrite for_each_append, jacobian_loop.
  cbn [mbind option_bind constraints].
  rewrite hessian_loop.
  fold (objective_sparsity idx (comp_set_of (get_parameter_set DB) ss idx conds <$> pc)).
  unfold mass_balance_part.
  set (cons := pf_c ++ mjoin (fst <$> outs) ++ _).
  replace ((pf_c ++ mjoin (fst <$> outs)) ++
           ((λ i : string * double, MassBalanceConstraint pc i.1 i.2) <$> xfrac conds))
    with cons by (subst cons; by rewrite <- app_assoc).
  match goal with
  | |- context [for_each hessian_step ?l (?d, ?sp, ?lg1)] =>
      match goal with
      | |- context [for_each hessian_step l (d, sp, ?lg2)] =>
          assert (Hlog : lg1 = lg2); [|rewrite Hlog]
      end
  end.
  { unfold configuration_records, no_components, no_phases.
    repeat case_bool_decide; by rewrite <- ?app_assoc. }
  by destruct (for_each hessian_step _ _) as [[? ?] ?].
Qed.

(** *** What the constructor returns *)

Lemma elem_of_jacobian_pairs idx (cons : list (Constraint Phase)) i k c :
  (i, (k, c)) ∈ jacobian_pairs idx cons ↔ i ∈ idx ∧ cons !! k = Some c.
Proof.
  unfold jacobian_pairs. rewrite list_elem_of_bind. split.
  - intros (i' & Hin & Hi'). apply list_elem_of_fmap in Hin as ([k' c'] & [= -> -> ->] & Hkc).
    by apply elem_of_enumerate in Hkc.
  - intros [Hi Hk]. exists i. split; [|done].
    apply list_elem_of_fmap. exists (k, c). split; [done|]. by apply elem_of_enumerate.
Qed.

Lemma elem_of_jacobian_entries idx (cons : list (Constraint Phase)) e :
  e ∈ jacobian_entries idx cons ↔
  ∃ i k c, i ∈ idx ∧ cons !! k = Some c ∧ zero_detected c i.1 = false ∧
           e = jacobian_entry_for i (k, c).
Proof.
  unfold jacobian_entries. rewrite list_elem_of_fmap. split.
  - intros ([i [k c]] & -> & [Hr Hin]%list_elem_of_filter).
    apply elem_of_jacobian_pairs in Hin as [Hi Hk]. by exists i, k, c.
  - intros (i & k & c & Hi & Hk & Hz & ->). exists (i, (k, c)). split; [done|].
    apply list_elem_of_filter. split; [done|]. by apply elem_of_jacobian_pairs.
Qed.

Lemma elem_of_hessian_pairs idx (jac : list jacobian_entry) i j :
  (i, j) ∈ hessian_pairs idx jac ↔ i ∈ idx ∧ j ∈ jac.
Proof.
  unfold hessian_pairs. rewrite list_elem_of_bind. split.
  - by intros (i' & (j' & [= -> ->] & Hj)%list_elem_of_fmap_1 & Hi').
  - intros [Hi Hj]. exists i. split; [|done]. by apply list_elem_of_fmap_2.
Qed.

(** An index of the map belongs to one variable only. *)
Lemma index_unique (idx : index_bimap) (i i' : string * Z) :
  NoDup idx.*2 → i ∈ idx → i' ∈ idx → i.2 = i'.2 → i = i'.
Proof.
  intros Hnd [n Hn]%list_elem_of_lookup [n' Hn']%list_elem_of_lookup Heq.
  assert (n = n') as ->; [|congruence].
  eapply NoDup_lookup; [exact Hnd| |]; rewrite list_lookup_fmap.
  - by rewrite Hn.
  - rewrite Hn'. simpl. by rewrite Heq.
Qed.

(** A Jacobian entry is determined by its two indices. *)
Lemma jacobian_entry_unique idx (cons : list (Constraint Phase)) e e' :
  NoDup idx.*2 →
  e ∈ jacobian_entries idx cons → e' ∈ jacobian_entries idx cons →
  cons_index e = cons_index e' → var_index e = var_index e' → e = e'.
Proof.
  intros Hnd (i & k & c & Hi & Hk & _ & ->)%elem_of_jacobian_entries
    (i' & k' & c' & Hi' & Hk' & _ & ->)%elem_of_jacobian_entries Hc Hv.
  cbn in Hc, Hv. apply Nat2Z.inj in Hc as ->.
  assert (c = c') as -> by congruence.
  by rewrite (index_unique idx i i' Hnd Hi Hi' Hv).
Qed.

Lemma default_empty_lookup (o : option (gmap Z utree)) (c : Z) :
  default ∅ o !! c = o ≫= λ asts, asts !! c.
Proof. destruct o; [done|]. apply lookup_empty. Qed.

(** The tree read in the data after one iteration. *)
Lemma hessian_step_ast p s row col c :
  hessian_ast (hessian_step p s).1.1 row col c =
  if decide (stored p ∧ (p.1.2, var_index p.2, cons_index p.2) = (row, col, c))
  then Some (second_derivative p)
  else hessian_ast s.1.1 row col c.
Proof.
  unfold hessian_step, hessian_ast, hessian_set in *.
  destruct (decide (stored p)) as [Hst|Hst]; cbn [fst snd].
  - destruct (decide ((p.1.2, var_index p.2) = (row, col))) as [Hkey|Hkey].
    + rewrite Hkey, lookup_insert_eq. cbn [mbind option_bind].
      destruct (decide (cons_index p.2 = c)) as [Hc|Hc].
      * rewrite Hc, lookup_insert_eq. rewrite decide_True; [done|].
        split; [done|]. congruence.
      * rewrite lookup_insert_ne by done. rewrite default_empty_lookup.
        rewrite decide_False; [done|]. intros [_ ?]. congruence.
    + rewrite lookup_insert_ne by done.
      rewrite decide_False; [done|]. intros [_ ?]. congruence.
  - rewrite decide_False; [done|]. by intros [? _].
Qed.

Lemma hessian_pass_ast_unchanged L s row col c :
  (∀ p, p ∈ L → stored p → (p.1.2, var_index p.2, cons_index p.2) ≠ (row, col, c)) →
  hessian_ast (for_each hessian_step L s).1.1 row col c = hessian_ast s.1.1 row col c.
Proof.
  revert s. induction L as [|p L IH]; intros s Hnone; [done|].
  rewrite for_each_cons, IH.
  - rewrite hessian_step_ast, decide_False; [done|].
    intros [Hst Hkey]. by apply (Hnone p); [left| |].
  - intros q Hq. apply Hnone. by right.
Qed.

Lemma hessian_pass_ast_stored L s p :
  p ∈ L → stored p →
  (∀ q, q ∈ L → stored q →
     (q.1.2, var_index q.2, cons_index q.2) = (p.1.2, var_index p.2, cons_index p.2) →
     second_derivative q = second_derivative p) →
  hessian_ast (for_each hessian_step L s).1.1 p.1.2 (var_index p.2) (cons_index p.2) =
  Some (second_derivative p).
Proof.
  revert s. induction L as [|q L IH] using rev_ind; intros s Hp Hst Huniq.
  - by apply elem_of_nil in Hp.
  - rewrite for_each_app. cbn [for_each fold_left].
    rewrite hessian_step_ast. case_decide as Hq.
    + destruct Hq as [Hq Hkey]. f_equal. apply Huniq; [|done..].
      apply elem_of_app. right. left.
    + apply elem_of_app in Hp as [Hp|Hp%list_elem_of_singleton].
      * apply IH; [done..|]. intros q' Hq'. apply Huniq, elem_of_app. by left.
      * subst q. by destruct Hq.
Qed.

Lemma hessian_pass_ast_is_Some L s p :
  p ∈ L → stored p →
  is_Some (hessian_ast (for_each hessian_step L s).1.1
             p.1.2 (var_index p.2) (cons_index p.2)).
Proof.
  revert s. induction L as [|q L IH] using rev_ind; intros s Hp Hst.
  - by apply elem_of_nil in Hp.
  - rewrite for_each_app. cbn [for_each fold_left].
    rewrite hessian_step_ast. case_decide as Hq; [by eexists|].
    apply elem_of_app in Hp as [Hp|Hp%list_elem_of_singleton]; [by apply IH|].
    subst q. by destruct Hq.
Qed.

Lemma hessian_step_triangular sp0 p s :
  triangular sp0 s → triangular sp0 (hessian_step p s).
Proof.
  unfold triangular, hessian_step. unfold hessian_set in *. intros [Hdata Hsp].
  case_decide as Hst; [|done]. destruct Hst as [Hle _].
  split; cbn [fst snd].
  - intros row col. rewrite lookup_insert_is_Some.
    intros [[= <- <-]|[_ ?]]; [done|by apply Hdata].
  - intros x [->%elem_of_singleton|Hx]%elem_of_union.
    + right. exists p.1.2, (var_index p.2). split_and!; [done..|].
      rewrite lookup_insert_is_Some. by left.
    + destruct (Hsp x Hx) as [?|(row & col & -> & ? & ?)]; [by left|].
      right. exists row, col. split_and!; [done..|].
      rewrite lookup_insert_is_Some.
      destruct (decide ((p.1.2, var_index p.2) = (row, col))); [by left|by right].
Qed.

Lemma hessian_pass_triangular L sp0 log :
  triangular sp0 (for_each hessian_step L (∅, sp0, log)).
Proof.
  apply (for_each_invariant (triangular sp0)).
  - unfold triangular. unfold hessian_set in *. split; cbn [fst snd].
    + intros row col [? Hl]. by rewrite lookup_empty in Hl.
    + intros x ?. by left.
  - intros p s _. apply hessian_step_triangular.
Qed.

Lemma hessian_pass_sparsity L s p :
  p ∈ L → stored p → [p.1.2; var_index p.2] ∈ (for_each hessian_step L s).1.2.
Proof.
  revert s. induction L as [|q L IH] using rev_ind; intros s Hp Hst.
  - by apply elem_of_nil in Hp.
  - rewrite for_each_app. cbn [for_each fold_left].
    apply elem_of_app in Hp as [Hp|Hp%list_elem_of_singleton].
    + unfold hessian_step. case_decide; [|by apply IH]. cbn [fst snd].
      apply elem_of_union. right. by apply IH.
    + subst q. unfold hessian_step. rewrite decide_True by done. cbn [fst snd].
      apply elem_of_union. left. by apply elem_of_singleton.
Qed.

Lemma hessian_pass_log L s :
  (for_each hessian_step L s).2 = s.2 ++ (hessian_record <$> filter stored L).
Proof.
  revert s. induction L as [|p L IH]; intros s.
  - simpl. by rewrite app_nil_r.
  - rewrite for_each_cons, IH, filter_cons. unfold hessian_step.
    case_decide; [|done]. cbn [fst snd]. by rewrite <- app_assoc.
Qed.

(** The fields of the object that the constructor returns. *)
Lemma GibbsOpt_ctor_inv DB conds g log :
  GibbsOpt_ctor DB conds = Some (g, log) →
  ∃ pf outs log1 h,
    phase_fraction_part (phase_col g) (main_indices g) = Some pf ∧
    mapM (sublattice_part conds (main_indices g)) (sublattice_pairs (phase_col g)) =
      Some outs ∧
    conditions g = conds ∧
    phase_col g = entered_phases DB conds ∧
    main_ss g = (build_variable_map (phase_col g) conds).1 ∧
    main_indices g = (build_variable_map (phase_col g) conds).2 ∧
    comp_sets g =
      comp_set_of (get_parameter_set DB) (main_ss g) (main_indices g) conds <$>
        phase_col g ∧
    constraints (cm g) =
      pf.1 ++ mjoin (fst <$> outs) ++ mass_balance_part (phase_col g) conds ∧
    fixed_indices g = pf.2 ++ mjoin (snd <$> outs) ∧
    jac_g_trees g = jacobian_entries (main_indices g) (constraints (cm g)) ∧
    log1 =
      [LOG_CHANNEL_SEV "optimizer" debug [LStr "enter ctor"]] ++
      configuration_records conds (phase_col g) ++
      (variable_record <$> main_indices g) ++
      (minima_record (get_parameter_set DB) (main_ss g) (main_indices g) conds <$>
         phase_col g) ++
      (constraints (cm g) ≫= constraint_records) ++
      jacobian_records (main_indices g) (constraints (cm g)) ∧
    h = for_each hessian_step (hessian_pairs (main_indices g) (jac_g_trees g))
          (∅, objective_sparsity (main_indices g) (comp_sets g), log1) ∧
    constraint_hessian_data g = h.1.1 ∧
    hess_sparsity_structure g = h.1.2 ∧
    log = h.2 ++ [LOG_SEV debug [LStr "function exit"]].
Proof.
  rewrite GibbsOpt_ctor_assemble. unfold assemble.
  destruct (phase_fraction_part _ _) as [pf|] eqn:Hpf; [|done].
  cbn [mbind option_bind].
  destruct (mapM _ _) as [outs|] eqn:Houts; [|done].
  cbn [mbind option_bind]. intros [= <- <-]. cbn.
  eexists pf, outs, _, _. split_and!; done.
Qed.

(** The constructor returns when the index map has the names it looks
    up, and only then. *)
Lemma GibbsOpt_ctor_returns DB conds :
  is_Some (GibbsOpt_ctor DB conds) ↔ variables_known DB conds.
Proof.
  rewrite GibbsOpt_ctor_assemble. unfold assemble, variables_known, looked_up.
  set (pc := entered_phases DB conds).
  set (idx := (build_variable_map pc conds).2).
  rewrite Forall_app.
  assert (Hpf : is_Some (phase_fraction_part pc idx) ↔
                Forall (λ n, is_Some (left_at n idx))
                  match pc with [(first, _)] => [phase_fraction_name first] | _ => [] end).
  { unfold phase_fraction_part. destruct pc as [|[first ph] [|? ?]].
    - split; [constructor|by eexists].
    - rewrite Forall_singleton.
      destruct (left_at (phase_fraction_name first) idx); cbn.
      + split; by eexists.
      + split; by intros [? ?].
    - split; [constructor|by eexists]. }
  assert (Hsub : is_Some (mapM (sublattice_part conds idx) (sublattice_pairs pc)) ↔
                 Forall (λ n, is_Some (left_at n idx))
                   (sublattice_pairs pc ≫= λ p,
                      match tracked conds p.2.2 with
                      | [species] => [site_fraction_name p.1 p.2.1 species]
                      | _ => []
                      end)).
  { rewrite mapM_is_Some. generalize (sublattice_pairs pc). intros l.
    induction l as [|p l IH]; [split; constructor|].
    cbn [mbind list_bind]. rewrite Forall_cons, Forall_app, IH.
    apply and_iff_compat_r. unfold sublattice_part. cbn [compose].
    destruct (tracked conds p.2.2) as [|species [|? ?]].
    - split; [constructor|by eexists].
    - rewrite Forall_singleton.
      destruct (left_at _ idx); cbn.
      + split; by eexists.
      + split; by intros [? ?].
    - split; [constructor|by eexists]. }
  rewrite <- Hpf, <- Hsub.
  destruct (phase_fraction_part pc idx) as [pf|]; cbn [mbind option_bind].
  - destruct (mapM _ _) as [outs|]; cbn [mbind option_bind].
    + split; [by split; eexists|by eexists].
    + split; [by intros [? ?]|by intros [_ [? ?]]].
  - split; [by intros [? ?]|by intros [[? ?] _]].
Qed.

(** *** The classes of the constraints *)

Lemma sublattice_part_case conds idx p out :
  sublattice_part conds idx p = Some out → sublattice_case conds idx p out.
Proof.
  unfold sublattice_part, sublattice_case.
  destruct (tracked conds p.2.2) as [|species [|species' l]]; cbn.
  - intros [= <-]. split_and!; [done|done|lia].
  - destruct (left_at _ idx) as [index|] eqn:Hidx; cbn; [|done].
    intros [= <-]. split_and!; [done| |lia].
    intros ? [= <-]. by exists index.
  - intros [= <-]. split_and!; done.
Qed.

Lemma sublattice_parts_cases conds idx pairs outs :
  mapM (sublattice_part conds idx) pairs = Some outs →
  Forall2 (sublattice_case conds idx) pairs outs.
Proof.
  intros Hm%mapM_Some. eapply Forall2_impl; [exact Hm|].
  intros p out. apply sublattice_part_case.
Qed.

Lemma sublattice_case_constraints conds idx p out :
  sublattice_case conds idx p out →
  out.1 = if decide (1 < length (tracked conds p.2.2))%nat
          then [SublatticeBalanceConstraint p.1 p.2.1 (tracked conds p.2.2)]
          else [].
Proof.
  intros (H0 & H1 & H2). cbn in *.
  destruct (tracked conds p.2.2) as [|species [|species' l]] eqn:Ht.
  - rewrite decide_False by (cbn; lia). by rewrite H0.
  - rewrite decide_False by (cbn; lia). by destruct (H1 _ eq_refl) as (? & _ & ->).
  - rewrite decide_True by (cbn; lia). rewrite H2; [done|cbn; lia].
Qed.

Lemma sublattice_cases_class conds idx pairs outs :
  Forall2 (sublattice_case conds idx) pairs outs →
  Forall is_sublattice_balance (mjoin outs.*1).
Proof.
  induction 1 as [|p out pairs outs Hcase _ IH]; [constructor|].
  cbn. apply Forall_app. split; [|done].
  rewrite (sublattice_case_constraints _ _ _ _ Hcase).
  case_decide; repeat constructor.
Qed.

Lemma phase_fraction_part_constraints (pc : StdMap.t Phase) idx pf :
  phase_fraction_part pc idx = Some pf →
  pf.1 = if decide (1 < length pc)%nat then [PhaseFractionBalanceConstraint pc] else [].
Proof.
  unfold phase_fraction_part. destruct pc as [|[first ph] [|? ?]].
  - by intros [= <-].
  - destruct (left_at _ idx); cbn; [|done]. by intros [= <-].
  - intros [= <-]. rewrite decide_True; [done|cbn; lia].
Qed.

Lemma mass_balance_part_class (pc : StdMap.t Phase) conds :
  Forall is_mass_balance (mass_balance_part pc conds).
Proof.
  unfold mass_balance_part. apply Forall_fmap, Forall_true. by intros ?.
Qed.

(** *** One sublattice balance for a pair *)

Lemma fst_enumerate {A : Type} (c : list A) : (enumerate c).*1 = seq 0 (length c).
Proof.
  unfold enumerate. generalize 0%nat. induction c as [|x c IH]; intros n; [done|].
  cbn. by rewrite IH.
Qed.

Lemma elem_of_sublattice_pairs (pc : StdMap.t Phase) name j subl :
  (name, (j, subl)) ∈ sublattice_pairs pc ↔
  ∃ ph, (name, ph) ∈ pc ∧ get_sublattices ph !! j = Some subl.
Proof.
  unfold sublattice_pairs. rewrite list_elem_of_bind. split.
  - intros ([k ph] & ([j' subl'] & [= -> -> ->] & Hj)%list_elem_of_fmap & Hi).
    exists ph. split; [done|]. by apply elem_of_enumerate.
  - intros (ph & Hi & Hj). exists (name, ph). split; [|done].
    apply list_elem_of_fmap. exists (j, subl). split; [done|].
    by apply elem_of_enumerate.
Qed.

Lemma sublattice_pairs_NoDup (pc : StdMap.t Phase) :
  NoDup (StdMap.keys pc) →
  NoDup ((λ p : string * (nat * Sublattice), (p.1, p.2.1)) <$> sublattice_pairs pc).
Proof.
  unfold StdMap.keys, sublattice_pairs.
  induction pc as [|[k ph] pc IH]; [constructor|].
  intros [Hk Hnd]%NoDup_cons. cbn [mbind list_bind fst snd].
  rewrite fmap_app. apply NoDup_app. split_and!.
  - rewrite <- list_fmap_compose.
    change ((λ p : string * (nat * Sublattice), (p.1, p.2.1)) ∘ pair k)
      with (pair k ∘ (fst : nat * Sublattice → nat)).
    rewrite list_fmap_compose, fst_enumerate.
    apply NoDup_fmap_2; [by intros ?? [= ->]|]. apply NoDup_seq.
  - intros kj ([? [? ?]] & -> & (? & [= <- <-] & _)%list_elem_of_fmap)%list_elem_of_fmap.
    cbn. intros ([k' [j' subl']] & [= <- <-] & Hin)%list_elem_of_fmap.
    apply list_elem_of_bind in Hin as ([k'' ph''] & (? & [= -> _] & _)%list_elem_of_fmap & Hin).
    apply Hk. apply list_elem_of_fmap. by exists (k'', ph'').
  - by apply IH.
Qed.

Lemma sublattice_balance_of_none conds idx name j pairs outs :
  Forall2 (sublattice_case conds idx) pairs outs →
  (name, j) ∉ (λ p : string * (nat * Sublattice), (p.1, p.2.1)) <$> pairs →
  filter (is_sublattice_balance_of name j) (mjoin outs.*1) = [].
Proof.
  induction 1 as [|p out pairs outs Hcase _ IH]; [done|].
  rewrite fmap_cons, not_elem_of_cons. intros [Hne Hnin].
  change (mjoin (out :: outs).*1) with (out.1 ++ mjoin outs.*1).
  rewrite filter_app, IH by done.
  rewrite (sublattice_case_constraints _ _ _ _ Hcase).
  case_decide; [|done].
  rewrite filter_cons, decide_False; [done|].
  cbn. intros [Hn Hj]%bool_decide_unpack. apply Hne. by rewrite <- Hn, <- Hj.
Qed.

Lemma sublattice_balance_of_one conds idx name j subl pairs outs :
  Forall2 (sublattice_case conds idx) pairs outs →
  NoDup ((λ p : string * (nat * Sublattice), (p.1, p.2.1)) <$> pairs) →
  (name, (j, subl)) ∈ pairs →
  filter (is_sublattice_balance_of name j) (mjoin outs.*1) =
  if decide (1 < length (tracked conds subl))%nat
  then [SublatticeBalanceConstraint name j (tracked conds subl)]
  else [].
Proof.
  induction 1 as [|p out pairs outs Hcase Hall IH]; [by intros _ ?%elem_of_nil|].
  rewrite fmap_cons. intros [Hp Hnd]%NoDup_cons Hin.
  change (mjoin (out :: outs).*1) with (out.1 ++ mjoin outs.*1).
  rewrite filter_app.
  rewrite (sublattice_case_constraints _ _ _ _ Hcase).
  apply elem_of_cons in Hin as [<-|Hin].
  - cbn in *. rewrite (sublattice_balance_of_none _ _ _ _ _ _ Hall Hp), app_nil_r.
    case_decide; [|done].
    rewrite filter_cons, decide_True; [done|].
    cbn. by apply bool_decide_pack.
  - rewrite IH by done.
    assert (Hne : (p.1, p.2.1) ≠ (name, j)).
    { intros Heq. apply Hp. rewrite Heq.
      apply list_elem_of_fmap. by exists (name, (j, subl)). }
    destruct (decide (1 < length (tracked conds p.2.2))%nat); [|done].
    rewrite filter_cons, decide_False; [done|].
    cbn. intros [Hn Hj]%bool_decide_unpack. apply Hne. by rewrite Hn, Hj.
Qed.

Lemma filter_none {A : Type} (P Q : A → Prop) `{∀ x, Decision (P x)} (l : list A) :
  Forall Q l → (∀ x, Q x → ¬ P x) → filter P l = [].
Proof.
  intros Hall HQP. induction Hall as [|x l Hx _ IH]; [done|].
  rewrite filter_cons, decide_False by (by apply HQP). done.
Qed.

(** *** The records of the log *)

Lemma configuration_records_elem conds (pc : StdMap.t Phase) r :
  r ∈ configuration_records conds pc →
  r = no_components ∧ elements conds = [] ∨ r = no_phases ∧ pc = [].
Proof.
  unfold configuration_records.
  intros [Hr|Hr]%elem_of_app; case_bool_decide;
    try (by apply elem_of_nil in Hr); apply list_elem_of_singleton in Hr; auto.
Qed.

(** Every record of the log that is not about the configuration has the
    severity [debug]. *)
Lemma GibbsOpt_ctor_log_critical DB conds g log r :
  GibbsOpt_ctor DB conds = Some (g, log) →
  r ∈ log → log_severity r = critical →
  r ∈ configuration_records conds (phase_col g).
Proof.
  intros Hctor.
  destruct (GibbsOpt_ctor_inv _ _ _ _ Hctor)
    as (pf & outs & log1 & h & _ & _ & _ & _ & _ & _ & _ & _ & _ & _ & Hlog1 & Hh & _ & _ & ->).
  rewrite Hh, hessian_pass_log. cbn [snd]. rewrite Hlog1.
  rewrite !elem_of_app.
  intros [[[Hr|[Hr|[Hr|[Hr|[Hr|Hr]]]]]|Hr]|Hr] Hsev; try done.
  - apply list_elem_of_singleton in Hr as ->. done.
  - apply list_elem_of_fmap in Hr as (? & -> & _). done.
  - apply list_elem_of_fmap in Hr as (? & -> & _). done.
  - apply list_elem_of_bind in Hr as (c & Hr & _). unfold constraint_records in Hr.
    apply elem_of_cons in Hr as [->|Hr]; [done|].
    apply list_elem_of_singleton in Hr as ->. done.
  - unfold jacobian_records in Hr. apply list_elem_of_fmap in Hr as (? & -> & _). done.
  - apply list_elem_of_fmap in Hr as (? & -> & _). done.
  - apply list_elem_of_singleton in Hr as ->. done.
Qed.

Lemma GibbsOpt_ctor_log_configuration DB conds g log r :
  GibbsOpt_ctor DB conds = Some (g, log) →
  r ∈ configuration_records conds (phase_col g) → r ∈ log.
Proof.
  intros Hctor Hr.
  destruct (GibbsOpt_ctor_inv _ _ _ _ Hctor)
    as (pf & outs & log1 & h & _ & _ & _ & _ & _ & _ & _ & _ & _ & _ & Hlog1 & Hh & _ & _ & ->).
  rewrite Hh, hessian_pass_log. cbn [snd]. rewrite Hlog1.
  rewrite !elem_of_app. auto 10.
Qed.

Lemma tracked_no_elements conds subl : elements conds = [] → tracked conds subl = [].
Proof.
  intros Hel. unfold tracked. rewrite Hel.
  induction (get_species subl) as [|k l IH]; [done|].
  rewrite filter_cons, decide_False by apply not_elem_of_nil. done.
Qed.

(** An iteration of the loop of the composition sets for a phase with
    more than one minimum: the phase is counted, its composition set is
    emplaced and the number of minima is logged. *)
Lemma comp_set_body_several_minima pset ss idx conds phase_name ph a comp log :
  StdMap.find phase_name (phases conds) = Some ENTERED →
  StdMap.find phase_name comp = None →
  (1 < length (LocateMinima (CompositionSet_ctor ph pset ss idx) ss conds))%nat →
  comp_set_body pset ss idx (phase_name, ph) (conds, a, comp, log) =
  (conds, a + 1, StdMap.emplace phase_name (CompositionSet_ctor ph pset ss idx) comp,
   log ++ [minima_record pset ss idx conds (phase_name, ph)]).
Proof.
  intros Hst Hfind Hlen. unfold comp_set_body. cbn [fst snd].
  rewrite (subscript_present _ _ _ _ Hst), set_phases_id.
  rewrite bool_decide_eq_false_2 by (by intros ?).
  rewrite Hfind. cbn [default]. unfold minima_record. cbn [fst snd].
  destruct (LocateMinima _ ss conds) as [|? [|? ?]]; cbn in Hlen; [lia|lia|done].
Qed.

Lemma filter_key_NoDup {V : Type} (m : list (string * V)) k v :
  NoDup (StdMap.keys m) → (k, v) ∈ m →
  filter (λ e : string * V, e.1 = k) m = [(k, v)].
Proof.
  unfold StdMap.keys. induction m as [|[k0 v0] m IH]; [by intros _ ?%elem_of_nil|].
  rewrite fmap_cons. intros [Hk0 Hnd]%NoDup_cons [[= <- <-]|Hin]%elem_of_cons.
  - rewrite filter_cons_True by done. f_equal.
    apply (filter_none _ (λ e, e ∈ m)); [by apply Forall_forall|].
    intros [k1 v1] Hin Heq. cbn in Heq. subst k1. apply Hk0.
    apply list_elem_of_fmap. by exists (k, v1).
  - rewrite filter_cons_False; [by apply IH|].
    cbn. intros ->. apply Hk0. apply list_elem_of_fmap. by exists (k, v).
Qed.

End PassFacts.

(** ** The claims of the specification *)

Section Claims.
Context `{Collaborators}.

(** C1. For every variable of the index map and every constraint of the
    constraint manager, the list of Jacobian entries has an entry for the
    pair (constraint index, variable index) if and only if the
    zero-detection test does not fire; the test differentiates both sides
    of the constraint with respect to the variable, simplifies both, and
    fires when both results are numeric constants that are numerically
    equal. The indices of the map are those of a bimap: no two variables
    share one. *)
Theorem jacobian_entry_iff_not_zero_detected DB conds g log
    (i : string * Z) (k : nat) (c : Constraint Phase) :
  GibbsOpt_ctor DB conds = Some (g, log) →
  NoDup (main_indices g).*2 →
  i ∈ main_indices g →
  constraints (cm g) !! k = Some c →
  (∃ e, e ∈ jac_g_trees g ∧ cons_index e = Z.of_nat k ∧ var_index e = i.2) ↔
  zero_detected c i.1 = false.
Proof.
  intros Hctor Hnd Hi Hk.
  destruct (GibbsOpt_ctor_inv _ _ _ _ Hctor)
    as (pf & outs & log1 & h & _ & _ & _ & _ & _ & _ & _ & _ & _ & Hjac & _).
  rewrite Hjac. split.
  - intros (e & (i' & k' & c' & Hi' & Hk' & Hz & ->)%elem_of_jacobian_entries & Hc & Hv).
    cbn in Hc, Hv. apply Nat2Z.inj in Hc as ->.
    assert (c' = c) as -> by congruence.
    by rewrite <- (index_unique _ i' i Hnd Hi' Hi Hv).
  - intros Hz. exists (jacobian_entry_for i (k, c)). split_and!; [|done..].
    apply elem_of_jacobian_entries. by exists i, k, c.
Qed.

(** C2. In the second-derivative pass, for every variable [i] and every
    Jacobian entry [j] with the index of [i] not greater than the variable
    index of [j], the derivative of the tree of [j] with respect to [i] is
    skipped (no tree is recorded for the constraint of [j] at the pair of
    indices) if and only if it is a provable zero; otherwise that very
    tree is recorded and the pair is in the sparsity structure. A tree is
    a provable zero when it simplifies to the zero constant; no second
    tree is compared with it. *)
Theorem second_derivative_skipped_iff_zero DB conds g log
    (i : string * Z) (j : jacobian_entry) :
  GibbsOpt_ctor DB conds = Some (g, log) →
  NoDup (main_indices g).*2 →
  i ∈ main_indices g →
  j ∈ jac_g_trees g →
  i.2 ≤ var_index j →
  let cons_second_deriv := differentiate_utree (ast j) i.1 in
  (hessian_ast (constraint_hessian_data g) i.2 (var_index j) (cons_index j) = None ↔
   is_zero_tree cons_second_deriv = true) ∧
  (is_zero_tree cons_second_deriv = false →
   hessian_ast (constraint_hessian_data g) i.2 (var_index j) (cons_index j) =
     Some cons_second_deriv ∧
   [i.2; var_index j] ∈ hess_sparsity_structure g) ∧
  (is_zero_tree cons_second_deriv = true ↔
   simplify_utree cons_second_deriv = int_type 0 ∨
   ∃ d, simplify_utree cons_second_deriv = double_type d ∧
        double_eq d (double_of_int 0) = true).
Proof.
  intros Hctor Hnd Hi Hj Hle cons_second_deriv.
  destruct (GibbsOpt_ctor_inv _ _ _ _ Hctor)
    as (pf & outs & log1 & h & _ & _ & _ & _ & _ & _ & _ & _ & _ & Hjac & _ & Hh & Hdata & Hsp & _).
  assert (Hin : (i, j) ∈ hessian_pairs (main_indices g) (jac_g_trees g))
    by (by apply elem_of_hessian_pairs).
  assert (Huniq : ∀ q, q ∈ hessian_pairs (main_indices g) (jac_g_trees g) →
            (q.1.2, var_index q.2, cons_index q.2) = (i.2, var_index j, cons_index j) →
            q = (i, j)).
  { intros [i' j'] [Hi' Hj']%elem_of_hessian_pairs [= Hv Hvj Hc]. cbn in *.
    rewrite (index_unique _ i' i Hnd Hi' Hi Hv).
    rewrite Hjac in Hj, Hj'.
    by rewrite (jacobian_entry_unique _ _ j' j Hnd Hj' Hj Hc Hvj). }
  assert (Hzero : is_zero_tree cons_second_deriv = true →
            hessian_ast (constraint_hessian_data g) i.2 (var_index j) (cons_index j) = None).
  { intros Hz. rewrite Hdata, Hh, hessian_pass_ast_unchanged; [done|].
    intros q Hq [_ Hnz] Hkey. rewrite (Huniq q Hq Hkey) in Hnz.
    unfold second_derivative in Hnz. cbn in Hnz. fold cons_second_deriv in Hnz.
    congruence. }
  assert (Hstored : is_zero_tree cons_second_deriv = false →
            hessian_ast (constraint_hessian_data g) i.2 (var_index j) (cons_index j) =
              Some cons_second_deriv ∧
            [i.2; var_index j] ∈ hess_sparsity_structure g).
  { intros Hz. assert (Hst : stored (i, j)) by done. split.
    - rewrite Hdata, Hh.
      apply (hessian_pass_ast_stored _ _ (i, j) Hin Hst).
      intros q Hq _ Hkey. by rewrite (Huniq q Hq Hkey).
    - rewrite Hsp, Hh. by apply (hessian_pass_sparsity _ _ (i, j)). }
  split_and!; [|done|].
  - split; [|done]. intros Hnone.
    destruct (is_zero_tree cons_second_deriv) eqn:Hz; [done|].
    destruct (Hstored eq_refl) as [Hsome _]. congruence.
  - unfold is_zero_tree. destruct (simplify_utree cons_second_deriv); split;
      try done; try (by intros [?|(? & ? & ?)]).
    + intros ->%Z.eqb_eq. by left.
    + intros [[= ->]|(? & ? & ?)]; done.
    + intros Hd. right. by eexists.
    + intros [?|(? & [= <-] & ?)]; done.
Qed.

(** C3. Every entry of the Hessian data is keyed by a pair of indices
    (row, column) with row ≤ column: an iteration in which the index of
    the variable is greater than the variable index of the Jacobian entry
    changes nothing, and every element of the sparsity structure that does
    not come from a composition set is such a pair. *)
Theorem hessian_entries_are_triangular DB conds g log :
  GibbsOpt_ctor DB conds = Some (g, log) →
  (∀ row col, is_Some (constraint_hessian_data g !! (row, col)) → row ≤ col) ∧
  (∀ x, x ∈ hess_sparsity_structure g →
     (∃ cs, cs ∈ comp_sets g ∧ x ∈ hessian_sparsity_structure cs.2 (main_indices g)) ∨
     (∃ row col, x = [row; col] ∧ row ≤ col ∧
                 is_Some (constraint_hessian_data g !! (row, col)))) ∧
  (∀ (i : string * Z) (j : jacobian_entry) s,
     i.2 > var_index j → hessian_body i j s = s).
Proof.
  intros Hctor.
  destruct (GibbsOpt_ctor_inv _ _ _ _ Hctor)
    as (pf & outs & log1 & h & _ & _ & _ & _ & _ & _ & _ & _ & _ & _ & _ & Hh & Hdata & Hsp & _).
  pose proof (hessian_pass_triangular
                (hessian_pairs (main_indices g) (jac_g_trees g))
                (objective_sparsity (main_indices g) (comp_sets g)) log1) as [Ht1 Ht2].
  rewrite <- Hh in Ht1, Ht2. rewrite <- Hdata in Ht1, Ht2. rewrite <- Hsp in Ht2.
  split_and!.
  - exact Ht1.
  - intros x Hx. destruct (Ht2 x Hx) as [Hobj|?]; [left|by right].
    by apply elem_of_objective_sparsity in Hobj.
  - intros i j s Hgt. rewrite hessian_body_eq. unfold hessian_step.
    rewrite decide_False; [done|]. intros [Hle _]. cbn in Hle. lia.
Qed.

(** C4. A phase-fraction balance is among the constraints if and only if
    more than one phase is active; it is then the balance over all the
    active phases. When exactly one phase is active there is no such
    constraint and the index of the fraction variable of that phase is the
    first of the fixed indices. The active phases, [phase_col], are the
    phases of the database that the conditions enter, each once. *)
Theorem phase_fraction_balance_iff_several_phases DB conds g log :
  GibbsOpt_ctor DB conds = Some (g, log) →
  ((∃ c, c ∈ constraints (cm g) ∧ is_phase_fraction_balance c) ↔
   (1 < length (phase_col g))%nat) ∧
  ((1 < length (phase_col g))%nat →
   filter is_phase_fraction_balance (constraints (cm g)) =
     [PhaseFractionBalanceConstraint (phase_col g)]) ∧
  (∀ first ph, phase_col g = [(first, ph)] →
     (∀ c, c ∈ constraints (cm g) → ¬ is_phase_fraction_balance c) ∧
     ∃ index, left_at (first +:+ "_FRAC") (main_indices g) = Some index ∧
              fixed_indices g !! 0%nat = Some index) ∧
  NoDup (StdMap.keys (phase_col g)) ∧
  (∀ phase_name,
     phase_name ∈ StdMap.keys (phase_col g) ↔
     phase_name ∈ StdMap.keys (get_phases DB) ∧
     StdMap.find phase_name (phases conds) = Some ENTERED).
Proof.
  intros Hctor.
  destruct (GibbsOpt_ctor_inv _ _ _ _ Hctor)
    as (pf & outs & log1 & h & Hpf & Houts & _ & Hpc & _ & _ & _ & Hcons & Hfixed & _).
  pose proof (phase_fraction_part_constraints _ _ _ Hpf) as Hpf1.
  pose proof (sublattice_cases_class _ _ _ _ (sublattice_parts_cases _ _ _ _ Houts))
    as Hsub.
  pose proof (mass_balance_part_class (phase_col g) conds) as Hmass.
  assert (Hfilter : filter is_phase_fraction_balance (constraints (cm g)) = pf.1).
  { rewrite Hcons, !filter_app.
    rewrite (filter_none _ _ _ Hsub) by (intros []; cbn; tauto).
    rewrite (filter_none _ _ _ Hmass) by (intros []; cbn; tauto).
    rewrite !app_nil_r, Hpf1. by case_decide. }
  split_and!.
  - split.
    + intros (c & Hc & Hclass).
      assert (Hin : c ∈ filter is_phase_fraction_balance (constraints (cm g)))
        by (by apply list_elem_of_filter).
      rewrite Hfilter, Hpf1 in Hin. case_decide; [done|by apply elem_of_nil in Hin].
    + intros Hlen. exists (PhaseFractionBalanceConstraint (phase_col g)).
      split; [|done]. rewrite Hcons, Hpf1, decide_True by done. left.
  - intros Hlen. by rewrite Hfilter, Hpf1, decide_True.
  - intros first ph Hone. split.
    + intros c Hc Hclass.
      assert (Hin : c ∈ filter is_phase_fraction_balance (constraints (cm g)))
        by (by apply list_elem_of_filter).
      rewrite Hfilter, Hpf1, Hone in Hin. cbn in Hin. by apply elem_of_nil in Hin.
    + rewrite Hone in Hpf. unfold phase_fraction_part, phase_fraction_name in Hpf.
      destruct (left_at _ (main_indices g)) as [index|]; cbn in Hpf; [|done].
      injection Hpf as <-. exists index. split; [done|]. by rewrite Hfixed.
  - rewrite Hpc. apply entered_phases_NoDup.
  - intros phase_name. rewrite Hpc. unfold StdMap.keys. split.
    + intros ([k ph] & -> & [? ?]%entered_phases_elem)%list_elem_of_fmap.
      split; [|done]. apply list_elem_of_fmap. by exists (k, ph).
    + intros [([k ph] & -> & Hin)%list_elem_of_fmap Hst].
      by eapply entered_phases_complete.
Qed.

(** C5. What every (active phase, sublattice) pair contributes depends on
    the number of its tracked species, the species of the sublattice that
    are elements of the conditions: none, nothing; exactly one, no
    constraint and the index of the site fraction of that species as fixed
    index; more than one, the sublattice balance of the pair over the
    tracked species and no fixed index. The constraints and the fixed
    indices are made of these contributions in the order of the pairs, and
    the constraints hold exactly one sublattice balance for a pair with
    more than one tracked species, none for any other pair. *)
Theorem sublattice_balance_by_tracked_species DB conds g log :
  GibbsOpt_ctor DB conds = Some (g, log) →
  ∃ pf outs,
    phase_fraction_part (phase_col g) (main_indices g) = Some pf ∧
    Forall2 (sublattice_case conds (main_indices g))
      (sublattice_pairs (phase_col g)) outs ∧
    constraints (cm g) =
      pf.1 ++ mjoin outs.*1 ++ mass_balance_part (phase_col g) conds ∧
    fixed_indices g = pf.2 ++ mjoin outs.*2 ∧
    ∀ phase_name ph j subl,
      (phase_name, ph) ∈ phase_col g → get_sublattices ph !! j = Some subl →
      (phase_name, (j, subl)) ∈ sublattice_pairs (phase_col g) ∧
      filter (is_sublattice_balance_of phase_name j) (constraints (cm g)) =
        (if decide (1 < length (tracked conds subl))%nat
         then [SublatticeBalanceConstraint phase_name j (tracked conds subl)]
         else []) ∧
      (∀ species, tracked conds subl = [species] →
         ∃ index,
           left_at (site_fraction_name phase_name j species) (main_indices g) =
             Some index ∧
           index ∈ fixed_indices g).
Proof.
  intros Hctor.
  destruct (GibbsOpt_ctor_inv _ _ _ _ Hctor)
    as (pf & outs & log1 & h & Hpf & Houts & _ & Hpc & _ & _ & _ & Hcons & Hfixed & _).
  pose proof (sublattice_parts_cases _ _ _ _ Houts) as Hcases.
  exists pf, outs. split_and!; [done..|].
  intros phase_name ph j subl Hph Hj.
  assert (Hin : (phase_name, (j, subl)) ∈ sublattice_pairs (phase_col g))
    by (apply elem_of_sublattice_pairs; by exists ph).
  split_and!; [done| |].
  - rewrite Hcons, !filter_app.
    rewrite (phase_fraction_part_constraints _ _ _ Hpf).
    rewrite (filter_none _ _ _ (mass_balance_part_class (phase_col g) conds))
      by (intros []; cbn; tauto).
    rewrite app_nil_r.
    rewrite (sublattice_balance_of_one _ _ _ _ subl _ _ Hcases); [|..|done].
    + by case_decide.
    + apply sublattice_pairs_NoDup. rewrite Hpc. apply entered_phases_NoDup.
  - intros species Htracked.
    apply list_elem_of_lookup in Hin as [n Hn].
    destruct (Forall2_lookup_l _ _ _ _ _ Hcases Hn) as (out & Hout & _ & Hone & _).
    destruct (Hone species Htracked) as (index & Hat & ->).
    exists index. split; [done|].
    rewrite Hfixed. apply elem_of_app. right.
    apply list_elem_of_join. exists [index]. split; [left|].
    apply list_elem_of_fmap. exists ([], [index]). split; [done|].
    by eapply list_elem_of_lookup_2.
Qed.

(** C6. The constraints end with the mass balances, one for every target
    mole fraction of the conditions and in their order; the constraints
    before them, the mandatory ones, are no mass balances. *)
Theorem mass_balances_follow_mandatory_constraints DB conds g log :
  GibbsOpt_ctor DB conds = Some (g, log) →
  ∃ mandatory,
    constraints (cm g) =
      mandatory ++
      ((λ i : string * double, MassBalanceConstraint (phase_col g) i.1 i.2) <$>
         xfrac conds) ∧
    Forall (λ c, ¬ is_mass_balance c) mandatory.
Proof.
  intros Hctor.
  destruct (GibbsOpt_ctor_inv _ _ _ _ Hctor)
    as (pf & outs & log1 & h & Hpf & Houts & _ & _ & _ & _ & _ & Hcons & _).
  exists (pf.1 ++ mjoin outs.*1). split.
  - by rewrite Hcons, <- app_assoc.
  - apply Forall_app. split.
    + rewrite (phase_fraction_part_constraints _ _ _ Hpf).
      case_decide; repeat constructor. by intros ?.
    + eapply Forall_impl.
      * exact (sublattice_cases_class _ _ _ _ (sublattice_parts_cases _ _ _ _ Houts)).
      * intros []; cbn; tauto.
Qed.

(** C7. When the locator returns exactly one minimum for the composition
    set of an active phase, the composition set that the constructor keeps
    for the phase is the one on which [set_starting_point] was called with
    that minimum. *)
Theorem single_minimum_is_starting_point DB conds g log phase_name ph minimum :
  GibbsOpt_ctor DB conds = Some (g, log) →
  (phase_name, ph) ∈ phase_col g →
  let new_set :=
    CompositionSet_ctor ph (get_parameter_set DB) (main_ss g) (main_indices g) in
  LocateMinima new_set (main_ss g) conds = [minimum] →
  StdMap.find phase_name (comp_sets g) = Some (set_starting_point new_set minimum).
Proof.
  intros Hctor Hph new_set Hmin.
  destruct (GibbsOpt_ctor_inv _ _ _ _ Hctor)
    as (pf & outs & log1 & h & _ & _ & _ & Hpc & _ & _ & Hcomp & _).
  apply find_NoDup.
  - rewrite Hcomp, comp_set_of_keys, Hpc. apply entered_phases_NoDup.
  - rewrite Hcomp. apply list_elem_of_fmap. exists (phase_name, ph). split; [|done].
    unfold comp_set_of. cbn [fst snd]. fold new_set. by rewrite Hmin.
Qed.

Lemma hessian_pass_fst (L : list ((string * Z) * jacobian_entry))
    (s s' : hessian_set * gset (list Z) * list log_record) :
  s.1 = s'.1 → (for_each hessian_step L s).1 = (for_each hessian_step L s').1.
Proof.
  revert s s'. induction L as [|p L IH]; intros s s' Hs; [done|].
  rewrite !for_each_cons. apply IH. unfold hessian_step.
  destruct (decide (stored p)); [|done]. cbn [fst snd]. by rewrite Hs.
Qed.

Lemma sublattice_cases_untracked conds idx pairs outs :
  Forall2 (sublattice_case conds idx) pairs outs →
  Forall (λ p, tracked conds p.2.2 = []) pairs →
  mjoin outs.*1 = [] ∧ mjoin outs.*2 = [].
Proof.
  induction 1 as [|p out pairs outs Hcase _ IH]; [done|].
  intros [Hp Hall]%Forall_cons. destruct (IH Hall) as [IH1 IH2].
  change (mjoin (out :: outs).*1) with (out.1 ++ mjoin outs.*1).
  change (mjoin (out :: outs).*2) with (out.2 ++ mjoin outs.*2).
  destruct Hcase as (H0 & _ & _). cbn in H0.
  by rewrite IH1, IH2, (H0 Hp).
Qed.

Lemma untracked_pairs DB conds :
  elements conds = [] ∨ entered_phases DB conds = [] →
  Forall (λ p, tracked conds p.2.2 = [])
    (sublattice_pairs (entered_phases DB conds)).
Proof.
  intros [Hel|Hpc].
  - apply Forall_forall. intros p _. by apply tracked_no_elements.
  - rewrite Hpc. constructor.
Qed.

(** Without elements or without active phase the only name looked up is
    the fraction of the phase, when there is exactly one. *)
Lemma configuration_failure_returns DB conds :
  elements conds = [] ∨ entered_phases DB conds = [] →
  is_Some (GibbsOpt_ctor DB conds) ↔
  ∀ first ph,
    entered_phases DB conds = [(first, ph)] →
    is_Some (left_at (first +:+ "_FRAC")
               (build_variable_map (entered_phases DB conds) conds).2).
Proof.
  intros Hconf. rewrite GibbsOpt_ctor_returns.
  unfold variables_known, looked_up. rewrite Forall_app.
  pose proof (untracked_pairs DB conds Hconf) as Hall.
  match goal with
  | |- _ ∧ Forall _ ?r ↔ _ => assert (Hsub : r = [])
  end.
  { induction Hall as [|p l Hp _ IH]; [done|]. cbn. by rewrite Hp. }
  rewrite Hsub. clear Hall Hsub Hconf.
  generalize (build_variable_map (entered_phases DB conds) conds).2.
  destruct (entered_phases DB conds) as [|[first ph] [|? ?]]; intros idx.
  - split; [by intros _ ? ? [=]|]. intros _. split; constructor.
  - rewrite Forall_singleton. split.
    + by intros [Hs _] ? ? [= <- <-].
    + intros Hs. split; [by apply (Hs first ph)|constructor].
  - split; [by intros _ ? ? [=]|]. intros _. split; constructor.
Qed.

(** C8. When the conditions have no element or no phase is active, the
    constructor logs the failure with the severity [critical], the highest
    one, and goes through every pass to the end of the assembly. The only
    thing in it that can throw on such a configuration is the lookup of
    the fraction variable of the phase when exactly one is active; with
    the index map of section 4.1 of the spec, which has that variable, and
    always without active phase, the constructor returns. The object then
    has its variable map, a composition set for every active phase, the
    phase-fraction balance and the mass balances as constraints, the
    fraction of a single phase as fixed index, the Jacobian of these
    constraints and the Hessian data and sparsity structure of that
    Jacobian. *)
Theorem configuration_failure_logged_not_thrown DB conds :
  let pc := entered_phases DB conds in
  let idx := (build_variable_map pc conds).2 in
  elements conds = [] ∨ pc = [] →
  (GibbsOpt_ctor DB conds = None ↔
   ∃ first ph, pc = [(first, ph)] ∧ left_at (first +:+ "_FRAC") idx = None) ∧
  (build_variable_map_registers ∨ pc = [] →
   ∃ g log, GibbsOpt_ctor DB conds = Some (g, log)) ∧
  ∀ g log,
    GibbsOpt_ctor DB conds = Some (g, log) →
    ((elements conds = [] → no_components ∈ log) ∧
     (pc = [] → no_phases ∈ log) ∧
     log_severity no_components = critical ∧
     log_severity no_phases = critical ∧
     (∀ sev, (severity_rank sev ≤ severity_rank critical)%nat) ∧
     last log = Some (LOG_SEV debug [LStr "function exit"])) ∧
    (conditions g = conds ∧
     phase_col g = pc ∧
     (main_ss g, main_indices g) = build_variable_map pc conds ∧
     comp_sets g =
       comp_set_of (get_parameter_set DB) (main_ss g) idx conds <$> pc ∧
     constraints (cm g) =
       (if decide (1 < length pc)%nat
        then [PhaseFractionBalanceConstraint pc] else []) ++
       ((λ i : string * double, MassBalanceConstraint pc i.1 i.2) <$> xfrac conds) ∧
     (∀ first ph,
        pc = [(first, ph)] →
        ∃ index, left_at (first +:+ "_FRAC") idx = Some index ∧
                 fixed_indices g = [index]) ∧
     (length pc ≠ 1%nat → fixed_indices g = []) ∧
     jac_g_trees g = jacobian_entries idx (constraints (cm g)) ∧
     (constraint_hessian_data g, hess_sparsity_structure g) =
       hessian_pass idx (jac_g_trees g) (comp_sets g)).
Proof.
  intros pc idx Hconf.
  pose proof (configuration_failure_returns DB conds Hconf) as Hret.
  split_and!.
  - rewrite eq_None_not_Some, Hret. subst idx pc. split.
    + intros Hn.
      destruct (entered_phases DB conds) as [|[first ph] [|? ?]];
        try (exfalso; apply Hn; by intros ? ? [=]).
      destruct (left_at (first +:+ "_FRAC") (build_variable_map [(first, ph)] conds).2)
        as [index|] eqn:Hat.
      * exfalso. apply Hn. intros ? ? [= <- <-]. by rewrite Hat.
      * by exists first, ph.
    + intros (first & ph & Hpc & Hat) Hall.
      destruct (Hall first ph Hpc) as [index Hindex]. congruence.
  - intros Hreg.
    assert (Hsome : is_Some (GibbsOpt_ctor DB conds)).
    { apply Hret. intros first ph Hpc. destruct Hreg as [Hreg|Hnone].
      - apply Hreg. rewrite Hpc. apply list_elem_of_bind. exists (first, ph).
        split; left.
      - subst pc. congruence. }
    destruct Hsome as [[g log] Hctor]. by exists g, log.
  - intros g log Hctor.
    destruct (GibbsOpt_ctor_inv _ _ _ _ Hctor)
      as (pf & outs & log1 & h & Hpf & Houts & Hconds & Hpc & Hss & Hidx & Hcomp
          & Hcons & Hfixed & Hjac & Hlog1 & Hh & Hdata & Hsp & Hlog).
    fold pc in Hpc. rewrite Hpc in *. fold idx in Hidx. rewrite Hidx in *.
    destruct (sublattice_cases_untracked _ _ _ _
                (sublattice_parts_cases _ _ _ _ Houts)
                (untracked_pairs DB conds Hconf)) as [Houts1 Houts2].
    rewrite Houts1 in Hcons. rewrite Houts2, app_nil_r in Hfixed.
    split; split_and!; try done.
    + intros Hel. apply (GibbsOpt_ctor_log_configuration _ _ _ _ _ Hctor).
      unfold configuration_records. rewrite bool_decide_eq_true_2 by done.
      apply elem_of_app. left. left.
    + intros Hnone. apply (GibbsOpt_ctor_log_configuration _ _ _ _ _ Hctor).
      unfold configuration_records. rewrite Hpc.
      rewrite (bool_decide_eq_true_2 (pc = [])) by done.
      apply elem_of_app. right. left.
    + intros []; cbn; lia.
    + rewrite Hlog. apply last_snoc.
    + rewrite Hss. subst idx. by destruct (build_variable_map pc conds).
    + rewrite Hcons. by rewrite (phase_fraction_part_constraints _ _ _ Hpf).
    + intros first ph Hone. rewrite Hone in Hpf. cbn in Hpf.
      destruct (left_at _ idx) as [index|] eqn:Hat; cbn in Hpf; [|done].
      injection Hpf as <-. by exists index.
    + intros Hlen. rewrite Hfixed. unfold phase_fraction_part in Hpf.
      destruct pc as [|[first ph] [|? ?]]; [by injection Hpf as <-|done|].
      by injection Hpf as <-.
    + unfold hessian_pass. rewrite Hdata, Hsp, Hh.
      rewrite (hessian_pass_fst _ (∅, objective_sparsity idx (comp_sets g), log1)
                 (∅, objective_sparsity idx (comp_sets g), [])) by done.
      by destruct (for_each hessian_step _ _).1.
Qed.

(** C9. When the locator returns more than one minimum for an active
    phase, the constructor still returns, provided the index map has the
    names it looks up. It keeps exactly one composition set for the phase,
    the one first constructed, on which no starting point was set; no
    record of the log flags the case, the only records above [debug] being
    the two about the configuration; and the iteration of the loop for
    such a phase does what it does for any phase, less the starting
    point. *)
Theorem several_minima_no_action DB conds phase_name ph :
  let pc := entered_phases DB conds in
  let pset := get_parameter_set DB in
  let ss := (build_variable_map pc conds).1 in
  let idx := (build_variable_map pc conds).2 in
  let new_set := CompositionSet_ctor ph pset ss idx in
  (phase_name, ph) ∈ pc →
  (1 < length (LocateMinima new_set ss conds))%nat →
  variables_known DB conds →
  ∃ g log,
    GibbsOpt_ctor DB conds = Some (g, log) ∧
    filter (λ cs : string * CompositionSet, cs.1 = phase_name) (comp_sets g) =
      [(phase_name, new_set)] ∧
    (∀ r, r ∈ log → log_severity r = critical → r = no_components ∨ r = no_phases) ∧
    (∀ a comp log0,
       StdMap.find phase_name comp = None →
       comp_set_body pset ss idx (phase_name, ph) (conds, a, comp, log0) =
       (conds, a + 1, StdMap.emplace phase_name new_set comp,
        log0 ++ [minima_record pset ss idx conds (phase_name, ph)])).
Proof.
  intros pc pset ss idx new_set Hph Hlen Hknown.
  apply GibbsOpt_ctor_returns in Hknown as [[g log] Hctor].
  exists g, log. split; [done|].
  destruct (GibbsOpt_ctor_inv _ _ _ _ Hctor)
    as (pf & outs & log1 & h & _ & _ & _ & Hpc & Hss & Hidx & Hcomp & _).
  rewrite Hpc in Hss, Hidx. fold pc ss in Hss. fold pc idx in Hidx.
  rewrite Hpc, Hss, Hidx in Hcomp. fold pc pset in Hcomp.
  split_and!.
  - apply filter_key_NoDup.
    + rewrite Hcomp, comp_set_of_keys. apply entered_phases_NoDup.
    + rewrite Hcomp. apply list_elem_of_fmap. exists (phase_name, ph). split; [|done].
      unfold comp_set_of. cbn [fst snd]. fold new_set.
      destruct (LocateMinima new_set ss conds) as [|? [|? ?]]; cbn in Hlen; [lia|lia|done].
  - intros r Hr Hsev.
    pose proof (GibbsOpt_ctor_log_critical _ _ _ _ _ Hctor Hr Hsev) as Hconf.
    apply configuration_records_elem in Hconf. tauto.
  - intros a comp log0 Hfind. apply comp_set_body_several_minima; [|done..].
    by apply entered_phases_elem in Hph as [? _].
Qed.

(** C10. The fixed indices are not left out of the derivatives. For a
    variable whose index is among the fixed indices, as for any other,
    the Jacobian has an entry for every constraint on which the
    zero-detection test does not fire, and the Hessian data has a tree for
    every Jacobian entry whose second derivative with respect to the
    variable is stored, and for every second derivative stored of a
    Jacobian entry of the variable. *)
Theorem fixed_indices_are_differentiated DB conds g log (i : string * Z) :
  GibbsOpt_ctor DB conds = Some (g, log) →
  i ∈ main_indices g →
  i.2 ∈ fixed_indices g →
  (∀ k c, constraints (cm g) !! k = Some c → zero_detected c i.1 = false →
     jacobian_entry_for i (k, c) ∈ jac_g_trees g) ∧
  (∀ j, j ∈ jac_g_trees g → i.2 ≤ var_index j →
     is_zero_tree (differentiate_utree (ast j) i.1) = false →
     is_Some (hessian_ast (constraint_hessian_data g)
                i.2 (var_index j) (cons_index j))) ∧
  (∀ i' j, i' ∈ main_indices g → j ∈ jac_g_trees g → var_index j = i.2 →
     i'.2 ≤ i.2 →
     is_zero_tree (differentiate_utree (ast j) i'.1) = false →
     is_Some (hessian_ast (constraint_hessian_data g) i'.2 i.2 (cons_index j))).
Proof.
  intros Hctor Hi _.
  destruct (GibbsOpt_ctor_inv _ _ _ _ Hctor)
    as (pf & outs & log1 & h & _ & _ & _ & _ & _ & _ & _ & _ & _ & Hjac & _ & Hh & Hdata & _).
  assert (Hpass : ∀ i0 j, i0 ∈ main_indices g → j ∈ jac_g_trees g →
            i0.2 ≤ var_index j →
            is_zero_tree (differentiate_utree (ast j) i0.1) = false →
            is_Some (hessian_ast (constraint_hessian_data g)
                       i0.2 (var_index j) (cons_index j))).
  { intros i0 j Hi0 Hj Hle Hz. rewrite Hdata, Hh.
    apply (hessian_pass_ast_is_Some _ _ (i0, j)); [|done].
    by apply elem_of_hessian_pairs. }
  split_and!.
  - intros k c Hk Hz. rewrite Hjac. apply elem_of_jacobian_entries. by exists i, k, c.
  - intros j. by apply Hpass.
  - intros i' j Hi' Hj <- Hle. by apply Hpass.
Qed.

End Claims.

(** ** Further properties of the source *)

(** X1. Adding trees to a root one after the other never throws, whatever
    the root is (also a node on which [push_back] throws), and nests the
    sums to the left: the root and every tree added are kept as they
    are. *)
Theorem add_trees_accumulates (root_tree : utree) (trees : list utree) :
  for_each_try (λ new_tree root, add_trees root new_tree) trees root_tree =
  Some (fold_left (λ root new_tree, list_type [string_type "+"; root; new_tree])
          trees root_tree).
Proof.
  revert root_tree. induction trees as [|new_tree trees IH]; intros root_tree; [done|].
  cbn. apply IH.
Qed.

Lemma assign_snoc {V : Type} k (v : V) (m : list (string * V)) :
  Forall (λ k', StdMap.key_lt k' k) (StdMap.keys m) →
  StdMap.assign k v m = m ++ [(k, v)].
Proof.
  unfold StdMap.keys.
  induction m as [|[k0 v0] m IH]; simpl; [done|].
  intros [Hk0 Hall]%Forall_cons. simpl in Hk0.
  rewrite (key_lt_compare_Gt _ _ Hk0). by rewrite IH.
Qed.

Lemma find_Some_lookup {V : Type} k (v : V) (m : list (string * V)) :
  StdMap.find k m = Some v → (k, v) ∈ m.
Proof.
  induction m as [|[k' v'] m IH]; simpl; [done|].
  destruct (String.eqb_spec k k') as [->|Hne].
  - intros [= ->]. left.
  - intros Hf. right. by apply IH.
Qed.

Section MoreFacts.
Context `{Collaborators}.

Lemma select_phases_filter conds (l acc : list (string * Phase)) :
  StdMap.sorted (acc ++ l) →
  for_each (select_phase conds) l acc =
  acc ++ filter (λ i, StdMap.find i.1 (phases conds) = Some ENTERED) l.
Proof.
  revert acc. induction l as [|[k ph] l IH]; intros acc Hs.
  - simpl. by rewrite app_nil_r.
  - rewrite for_each_cons. destruct (sorted_app_inv _ _ _ _ Hs) as (_ & Hlt & _).
    assert (Hs1 : StdMap.sorted ((acc ++ [(k, ph)]) ++ l)) by (by rewrite <- app_assoc).
    assert (Hs2 : StdMap.sorted (acc ++ l)).
    { revert Hs. unfold StdMap.sorted, StdMap.keys.
      rewrite !fmap_app, fmap_cons, !StronglySorted_app, StronglySorted_cons.
      intros (Hcross & Hacc & _ & Hl). split_and!; [|done..].
      intros x1 x2 Hx1 Hx2. apply Hcross; [done|by right]. }
    unfold select_phase at 2. cbn [fst snd].
    destruct (StdMap.find k (phases conds)) as [status|] eqn:Hst.
    + case_bool_decide as Hent.
      * subst status. rewrite assign_snoc by done. rewrite IH by done.
        rewrite filter_cons_True by done. by rewrite <- app_assoc.
      * rewrite IH by done. rewrite filter_cons_False; [done|].
        cbn. rewrite Hst. by intros [= ?].
    + rewrite IH by done. rewrite filter_cons_False; [done|]. cbn. by rewrite Hst.
Qed.

(** X2. When the phases of the database come in the order of their names,
    each name once, as a [std::map] gives them, [phase_col] is the
    database filtered: the phases whose status in the conditions is
    ENTERED, in the same order and with the same definitions; a phase
    that the conditions do not mention is left out, without error. *)
Theorem phase_col_is_filtered_database DB conds g log :
  GibbsOpt_ctor DB conds = Some (g, log) →
  StdMap.sorted (get_phases DB) →
  phase_col g =
    filter (λ i, StdMap.find i.1 (phases conds) = Some ENTERED) (get_phases DB).
Proof.
  intros Hctor Hs.
  destruct (GibbsOpt_ctor_inv _ _ _ _ Hctor)
    as (pf & outs & log1 & h & _ & _ & _ & Hpc & _).
  rewrite Hpc. unfold entered_phases. by rewrite select_phases_filter.
Qed.

(** X3. The constructor reads the status of the phases with [operator[]],
    which inserts a missing key; it never does: the conditions kept in the
    object are the conditions it was given. *)
Theorem conditions_are_not_modified DB conds g log :
  GibbsOpt_ctor DB conds = Some (g, log) → conditions g = conds.
Proof.
  intros Hctor.
  by destruct (GibbsOpt_ctor_inv _ _ _ _ Hctor) as (pf & outs & log1 & h & _ & _ & ? & _).
Qed.

(** X4. There is one composition set for every active phase and no other,
    in the order of the phases; when the locator returns no minimum for a
    phase its composition set is the one first constructed, with no
    starting point set. *)
Theorem one_composition_set_per_phase DB conds g log :
  GibbsOpt_ctor DB conds = Some (g, log) →
  StdMap.keys (comp_sets g) = StdMap.keys (phase_col g) ∧
  ∀ phase_name ph,
    (phase_name, ph) ∈ phase_col g →
    let new_set :=
      CompositionSet_ctor ph (get_parameter_set DB) (main_ss g) (main_indices g) in
    LocateMinima new_set (main_ss g) conds = [] →
    StdMap.find phase_name (comp_sets g) = Some new_set.
Proof.
  intros Hctor.
  destruct (GibbsOpt_ctor_inv _ _ _ _ Hctor)
    as (pf & outs & log1 & h & _ & _ & _ & Hpc & _ & _ & Hcomp & _).
  split; [by rewrite Hcomp, comp_set_of_keys|].
  intros phase_name ph Hph new_set Hmin. apply find_NoDup.
  - rewrite Hcomp, comp_set_of_keys, Hpc. apply entered_phases_NoDup.
  - rewrite Hcomp. apply list_elem_of_fmap. exists (phase_name, ph). split; [|done].
    unfold comp_set_of. cbn [fst snd]. fold new_set. by rewrite Hmin.
Qed.

Lemma jacobian_pairs_NoDup idx (cons : list (Constraint Phase)) :
  NoDup idx.*2 →
  NoDup ((λ p : (string * Z) * (nat * Constraint Phase), (Z.of_nat p.2.1, p.1.2)) <$>
           jacobian_pairs idx cons).
Proof.
  unfold jacobian_pairs. induction idx as [|i idx IH]; [constructor|].
  rewrite fmap_cons. intros [Hi Hnd]%NoDup_cons.
  cbn [mbind list_bind]. rewrite fmap_app. apply NoDup_app. split_and!.
  - rewrite <- list_fmap_compose.
    change ((λ p : (string * Z) * (nat * Constraint Phase), (Z.of_nat p.2.1, p.1.2)) ∘ pair i)
      with ((λ k : nat, (Z.of_nat k, i.2)) ∘ (fst : nat * Constraint Phase → nat)).
    rewrite list_fmap_compose, fst_enumerate.
    apply NoDup_fmap_2; [|apply NoDup_seq].
    intros k1 k2 [= Hk]. by apply Nat2Z.inj in Hk.
  - intros kv ([? [? ?]] & -> & (? & [= <- <-] & _)%list_elem_of_fmap)%list_elem_of_fmap.
    cbn. intros ([i' [k' c']] & [= _ Hv] & Hin)%list_elem_of_fmap. cbn in Hv.
    apply list_elem_of_bind in Hin as (i'' & (? & [= -> _] & _)%list_elem_of_fmap & Hin).
    apply Hi. rewrite Hv. apply list_elem_of_fmap. by exists i''.
  - by apply IH.
Qed.

(** X5. No two Jacobian entries are for the same pair of a constraint and
    a variable, the indices of the map being those of a bimap. *)
Theorem jacobian_entries_are_distinct DB conds g log :
  GibbsOpt_ctor DB conds = Some (g, log) →
  NoDup (main_indices g).*2 →
  NoDup ((λ e, (cons_index e, var_index e)) <$> jac_g_trees g).
Proof.
  intros Hctor Hnd.
  destruct (GibbsOpt_ctor_inv _ _ _ _ Hctor)
    as (pf & outs & log1 & h & _ & _ & _ & _ & _ & _ & _ & _ & _ & Hjac & _).
  rewrite Hjac. unfold jacobian_entries. rewrite <- list_fmap_compose.
  eapply sublist_NoDup; [exact (jacobian_pairs_NoDup _ (constraints (cm g)) Hnd)|].
  apply (fmap_sublist (λ p : (string * Z) * (nat * Constraint Phase),
                         (Z.of_nat p.2.1, p.1.2))), sublist_filter.
Qed.

(** X6. Every Jacobian entry comes from a variable of the index map and a
    constraint of the constraint manager on which the zero-detection test
    does not fire: its constraint index is the position of the constraint,
    below the number of constraints, its variable index is the index of
    the variable, its flag is [false] and its tree is the list of ["-"]
    and the two simplified derivatives. The pass never throws. *)
Theorem jacobian_entries_are_well_formed DB conds g log e :
  GibbsOpt_ctor DB conds = Some (g, log) →
  e ∈ jac_g_trees g →
  ∃ (i : string * Z) (k : nat) (c : Constraint Phase),
    i ∈ main_indices g ∧ constraints (cm g) !! k = Some c ∧
    zero_detected c i.1 = false ∧
    cons_index e = Z.of_nat k ∧ 0 ≤ cons_index e < Z.of_nat (length (constraints (cm g))) ∧
    var_index e = i.2 ∧ jac_flag e = false ∧
    ast e = list_type [string_type "-";
                       simplify_utree (differentiate_utree (lhs c) i.1);
                       simplify_utree (differentiate_utree (rhs c) i.1)].
Proof.
  intros Hctor He.
  destruct (GibbsOpt_ctor_inv _ _ _ _ Hctor)
    as (pf & outs & log1 & h & _ & _ & _ & _ & _ & _ & _ & _ & _ & Hjac & _).
  rewrite Hjac in He.
  apply elem_of_jacobian_entries in He as (i & k & c & Hi & Hk & Hz & ->).
  exists i, k, c. split_and!; try done.
  - cbn. lia.
  - cbn. apply lookup_lt_Some in Hk. lia.
Qed.

Lemma hessian_pass_sound L s row col c t :
  hessian_ast (for_each hessian_step L s).1.1 row col c = Some t →
  hessian_ast s.1.1 row col c = Some t ∨
  ∃ p, p ∈ L ∧ stored p ∧
       (p.1.2, var_index p.2, cons_index p.2) = (row, col, c) ∧
       t = second_derivative p.
Proof.
  revert s. induction L as [|p L IH]; intros s; [by left|].
  rewrite for_each_cons. intros [Hstep|(q & Hq & ?)]%IH.
  - rewrite hessian_step_ast in Hstep. case_decide as Hp; [|by left].
    destruct Hp as [Hst Hkey]. injection Hstep as <-. right. exists p.
    split_and!; [left|done..].
  - right. exists q. split; [by right|done].
Qed.

Lemma hessian_step_nonempty p s :
  (∀ key asts, s.1.1 !! key = Some asts → asts ≠ ∅) →
  ∀ key asts, (hessian_step p s).1.1 !! key = Some asts → asts ≠ ∅.
Proof.
  unfold hessian_step. unfold hessian_set in *. intros Hs key asts.
  case_decide; [|apply Hs]. cbn [fst snd].
  rewrite lookup_insert. case_decide; [|apply Hs].
  intros [= <-]. apply insert_non_empty.
Qed.

(** X7. Every tree of the Hessian data is the derivative of the tree of a
    Jacobian entry with respect to a variable of the index map: it is
    recorded for the constraint of the entry at the pair (index of the
    variable, variable index of the entry), the first not greater than the
    second, and it is no provable zero. No entry of the data is without
    trees. *)
Theorem hessian_trees_are_second_derivatives DB conds g log :
  GibbsOpt_ctor DB conds = Some (g, log) →
  (∀ row col c t,
     hessian_ast (constraint_hessian_data g) row col c = Some t →
     ∃ (i : string * Z) (j : jacobian_entry),
       i ∈ main_indices g ∧ j ∈ jac_g_trees g ∧
       row = i.2 ∧ col = var_index j ∧ c = cons_index j ∧ row ≤ col ∧
       t = differentiate_utree (ast j) i.1 ∧ is_zero_tree t = false) ∧
  (∀ row col asts,
     constraint_hessian_data g !! (row, col) = Some asts → asts ≠ ∅).
Proof.
  intros Hctor.
  destruct (GibbsOpt_ctor_inv _ _ _ _ Hctor)
    as (pf & outs & log1 & h & _ & _ & _ & _ & _ & _ & _ & _ & _ & _ & _ & Hh & Hdata & _).
  rewrite Hdata, Hh. split.
  - intros row col c t [Hinit|([i j] & Hin & [Hle Hz] & [= <- <- <-] & ->)]%hessian_pass_sound.
    + unfold hessian_ast, hessian_set in Hinit. cbn in Hinit.
      by rewrite lookup_empty in Hinit.
    + apply elem_of_hessian_pairs in Hin as [Hi Hj]. by exists i, j.
  - intros row col.
    apply (for_each_invariant
             (λ s : hessian_set * gset (list Z) * list log_record,
                ∀ key asts, s.1.1 !! key = Some asts → asts ≠ ∅)).
    + intros key asts. unfold hessian_set. cbn. by rewrite lookup_empty.
    + intros p s _. apply hessian_step_nonempty.
Qed.

Lemma hessian_step_sparsity_complete sp0 p s :
  (sp0 ⊆ s.1.2 ∧ ∀ row col, is_Some (s.1.1 !! (row, col)) → [row; col] ∈ s.1.2) →
  sp0 ⊆ (hessian_step p s).1.2 ∧
  ∀ row col, is_Some ((hessian_step p s).1.1 !! (row, col)) →
             [row; col] ∈ (hessian_step p s).1.2.
Proof.
  unfold hessian_step. unfold hessian_set in *. intros [Hsub Hkeys].
  case_decide; [|done]. cbn [fst snd]. split; [set_solver|].
  intros row col. rewrite lookup_insert_is_Some.
  intros [[= <- <-]|[_ ?]]; [set_solver|]. apply elem_of_union. right. by apply Hkeys.
Qed.

(** X8. The sparsity structure is the union of the structures of the
    composition sets and of the pairs that key the Hessian data, no more
    and no less: what a composition set contributes is never lost and
    every entry of the data has its pair in the structure. *)
Theorem sparsity_structure_is_union DB conds g log (x : list Z) :
  GibbsOpt_ctor DB conds = Some (g, log) →
  x ∈ hess_sparsity_structure g ↔
  (∃ cs, cs ∈ comp_sets g ∧ x ∈ hessian_sparsity_structure cs.2 (main_indices g)) ∨
  (∃ row col, x = [row; col] ∧ is_Some (constraint_hessian_data g !! (row, col))).
Proof.
  intros Hctor.
  destruct (GibbsOpt_ctor_inv _ _ _ _ Hctor)
    as (pf & outs & log1 & h & _ & _ & _ & _ & _ & _ & _ & _ & _ & _ & _ & Hh & Hdata & Hsp & _).
  set (sp0 := objective_sparsity (main_indices g) (comp_sets g)) in *.
  set (L := hessian_pairs (main_indices g) (jac_g_trees g)) in *.
  pose proof (hessian_pass_triangular L sp0 log1) as [_ Ht].
  assert (Hc : sp0 ⊆ h.1.2 ∧
               ∀ row col, is_Some (h.1.1 !! (row, col)) → [row; col] ∈ h.1.2).
  { rewrite Hh.
    apply (for_each_invariant
             (λ s : hessian_set * gset (list Z) * list log_record,
                sp0 ⊆ s.1.2 ∧
                ∀ row col, is_Some (s.1.1 !! (row, col)) → [row; col] ∈ s.1.2)).
    - split; [done|]. intros row col [? Hl]. unfold hessian_set in *. cbn in Hl.
      by rewrite lookup_empty in Hl.
    - intros p s _. apply hessian_step_sparsity_complete. }
  rewrite <- Hh in Ht. rewrite Hsp, Hdata. destruct Hc as [Hsub Hkeys]. split.
  - intros Hx. destruct (Ht x Hx) as [Hobj|(row & col & -> & _ & ?)].
    + left. by apply elem_of_objective_sparsity in Hobj.
    + right. by exists row, col.
  - intros [Hobj|(row & col & -> & ?)].
    + apply Hsub. by apply elem_of_objective_sparsity.
    + by apply Hkeys.
Qed.

(** X9. The constructor throws exactly when a name it looks up is not in
    the index map: the fraction variable of the phase, when exactly one
    phase is active, or the site fraction of the species of a sublattice
    of an active phase with exactly one tracked species. Nothing else in
    it throws. *)
Theorem constructor_throws_iff_unknown_variable DB conds :
  let pc := entered_phases DB conds in
  let idx := (build_variable_map pc conds).2 in
  GibbsOpt_ctor DB conds = None ↔
  (∃ first ph, pc = [(first, ph)] ∧ left_at (first +:+ "_FRAC") idx = None) ∨
  (∃ phase_name ph j subl species,
     (phase_name, ph) ∈ pc ∧ get_sublattices ph !! j = Some subl ∧
     tracked conds subl = [species] ∧
     left_at (phase_name +:+ "_" +:+ decimal j +:+ "_" +:+ species) idx = None).
Proof.
  intros pc idx.
  rewrite eq_None_not_Some, GibbsOpt_ctor_returns.
  unfold variables_known, looked_up. fold pc idx.
  rewrite <- Exists_Forall_neg
    by (intros n; destruct (left_at n idx); [by left|right; by intros [? ?]]).
  rewrite Exists_app, !Exists_exists.
  match goal with
  | |- ?A ∨ ?B ↔ ?C ∨ ?D => cut ((A ↔ C) ∧ (B ↔ D)); [tauto|]
  end.
  split; split.
  - intros (n & Hn & Hnone). destruct pc as [|[first ph] [|? ?]] eqn:Hpc;
      try (by apply elem_of_nil in Hn).
    apply list_elem_of_singleton in Hn as ->. exists first, ph. split; [done|].
    by apply eq_None_not_Some.
  - intros (first & ph & -> & Hnone). exists (phase_fraction_name first).
    split; [left|]. by apply eq_None_not_Some.
  - intros (n & ([phase_name [j subl]] & Hn & Hp)%list_elem_of_bind & Hnone).
    cbn in Hn. destruct (tracked conds subl) as [|species [|? ?]] eqn:Ht;
      try (by apply elem_of_nil in Hn).
    apply list_elem_of_singleton in Hn as ->.
    apply elem_of_sublattice_pairs in Hp as (ph & Hph & Hj).
    exists phase_name, ph, j, subl, species. split_and!; [done..|].
    by apply eq_None_not_Some.
  - intros (phase_name & ph & j & subl & species & Hph & Hj & Ht & Hnone).
    exists (site_fraction_name phase_name j species). split.
    + apply list_elem_of_bind. exists (phase_name, (j, subl)). split.
      * cbn. rewrite Ht. left.
      * apply elem_of_sublattice_pairs. by exists ph.
    + by apply eq_None_not_Some.
Qed.

(** X10. The log has the record "No components entered!" exactly when the
    conditions have no element and the record "No phases found!" exactly
    when no phase is active; it starts with "enter ctor" on the channel
    "optimizer". *)
Theorem critical_records_iff_configuration DB conds g log :
  GibbsOpt_ctor DB conds = Some (g, log) →
  (no_components ∈ log ↔ elements conds = []) ∧
  (no_phases ∈ log ↔ phase_col g = []) ∧
  head log = Some (LOG_CHANNEL_SEV "optimizer" debug [LStr "enter ctor"]).
Proof.
  intros Hctor. split_and!.
  - split.
    + intros Hr.
      apply (GibbsOpt_ctor_log_critical _ _ _ _ _ Hctor) in Hr; [|done].
      by apply configuration_records_elem in Hr as [[_ ?]|[[=] _]].
    + intros Hel. apply (GibbsOpt_ctor_log_configuration _ _ _ _ _ Hctor).
      unfold configuration_records. rewrite bool_decide_eq_true_2 by done.
      apply elem_of_app. left. left.
  - split.
    + intros Hr.
      apply (GibbsOpt_ctor_log_critical _ _ _ _ _ Hctor) in Hr; [|done].
      by apply configuration_records_elem in Hr as [[[=] _]|[_ ?]].
    + intros Hpc. apply (GibbsOpt_ctor_log_configuration _ _ _ _ _ Hctor).
      unfold configuration_records.
      rewrite (bool_decide_eq_true_2 (phase_col g = [])) by done.
      apply elem_of_app. right. left.
  - destruct (GibbsOpt_ctor_inv _ _ _ _ Hctor)
      as (pf & outs & log1 & h & _ & _ & _ & _ & _ & _ & _ & _ & _ & _ & Hlog1 & Hh & _ & _ & ->).
    rewrite Hh, hessian_pass_log. cbn [snd]. by rewrite Hlog1.
Qed.

Lemma sublattice_case_fixed conds idx p out :
  sublattice_case conds idx p out →
  (∀ x, x ∈ out.2 → ∃ n, left_at n idx = Some x) ∧
  length out.2 = (if decide (length (tracked conds p.2.2) = 1)%nat then 1 else 0)%nat.
Proof.
  intros (H0 & H1 & H2). cbn in *.
  destruct (tracked conds p.2.2) as [|species [|species' l]] eqn:Ht.
  - rewrite H0 by done. split; [by intros x ?%elem_of_nil|done].
  - destruct (H1 _ eq_refl) as (index & Hat & ->). split; [|done].
    intros x ->%list_elem_of_singleton. by eexists.
  - rewrite H2 by (cbn; lia). split; [by intros x ?%elem_of_nil|done].
Qed.

(** X11. Every fixed index is the index that the map gives to a name: the
    fixed indices are indices of variables of the map. *)
Theorem fixed_indices_are_variables DB conds g log x :
  GibbsOpt_ctor DB conds = Some (g, log) →
  x ∈ fixed_indices g →
  ∃ n, left_at n (main_indices g) = Some x ∧ (n, x) ∈ main_indices g.
Proof.
  intros Hctor Hx.
  destruct (GibbsOpt_ctor_inv _ _ _ _ Hctor)
    as (pf & outs & log1 & h & Hpf & Houts & _ & _ & _ & _ & _ & _ & Hfixed & _).
  assert (Hn : ∃ n, left_at n (main_indices g) = Some x).
  { rewrite Hfixed in Hx. apply elem_of_app in Hx as [Hx|Hx].
    - unfold phase_fraction_part in Hpf.
      destruct (phase_col g) as [|[first ph] [|? ?]].
      + injection Hpf as <-. by apply elem_of_nil in Hx.
      + destruct (left_at _ (main_indices g)) as [index|] eqn:Hat; cbn in Hpf; [|done].
        injection Hpf as <-. apply list_elem_of_singleton in Hx as ->. by eexists.
      + injection Hpf as <-. by apply elem_of_nil in Hx.
    - apply list_elem_of_join in Hx as (l & Hx & (out & -> & Hout)%list_elem_of_fmap).
      apply list_elem_of_lookup in Hout as [k Hk].
      destruct (Forall2_lookup_r _ _ _ _ _ (sublattice_parts_cases _ _ _ _ Houts) Hk)
        as (p & _ & Hcase).
      by apply (sublattice_case_fixed _ _ _ _ Hcase). }
  destruct Hn as [n Hn]. exists n. split; [done|]. by apply find_Some_lookup.
Qed.

Lemma sublattice_cases_lengths conds idx pairs outs :
  Forall2 (sublattice_case conds idx) pairs outs →
  length (mjoin outs.*1) =
    length (filter (λ p, 1 < length (tracked conds p.2.2))%nat pairs) ∧
  length (mjoin outs.*2) =
    length (filter (λ p, length (tracked conds p.2.2) = 1)%nat pairs).
Proof.
  induction 1 as [|p out pairs outs Hcase _ [IH1 IH2]]; [done|].
  change (mjoin (out :: outs).*1) with (out.1 ++ mjoin outs.*1).
  change (mjoin (out :: outs).*2) with (out.2 ++ mjoin outs.*2).
  rewrite !length_app, IH1, IH2, !filter_cons.
  rewrite (sublattice_case_constraints _ _ _ _ Hcase).
  destruct (sublattice_case_fixed _ _ _ _ Hcase) as [_ ->].
  split; case_decide; done.
Qed.

(** X12. The number of constraints is one for the phase-fraction balance,
    when more than one phase is active, plus the number of
    (phase, sublattice) pairs with more than one tracked species, plus the
    number of target mole fractions; the number of fixed indices is one,
    when exactly one phase is active, plus the number of pairs with
    exactly one tracked species. *)
Theorem numbers_of_constraints_and_fixed_indices DB conds g log :
  GibbsOpt_ctor DB conds = Some (g, log) →
  let pairs := sublattice_pairs (phase_col g) in
  length (constraints (cm g)) =
    ((if decide (1 < length (phase_col g)) then 1 else 0) +
     length (filter (λ p, 1 < length (tracked conds p.2.2)) pairs) +
     length (xfrac conds))%nat ∧
  length (fixed_indices g) =
    ((if decide (length (phase_col g) = 1) then 1 else 0) +
     length (filter (λ p, length (tracked conds p.2.2) = 1) pairs))%nat.
Proof.
  intros Hctor pairs.
  destruct (GibbsOpt_ctor_inv _ _ _ _ Hctor)
    as (pf & outs & log1 & h & Hpf & Houts & _ & _ & _ & _ & _ & Hcons & Hfixed & _).
  destruct (sublattice_cases_lengths _ _ _ _ (sublattice_parts_cases _ _ _ _ Houts))
    as [Hl1 Hl2].
  rewrite Hcons, Hfixed, !length_app, Hl1, Hl2.
  unfold mass_balance_part. rewrite length_fmap.
  rewrite (phase_fraction_part_constraints _ _ _ Hpf).
  fold pairs. split.
  - case_decide; cbn; lia.
  - f_equal. unfold phase_fraction_part in Hpf.
    destruct (phase_col g) as [|[first ph] [|? ?]].
    + by injection Hpf as <-.
    + destruct (left_at _ (main_indices g)); cbn in Hpf; [|done]. by injection Hpf as <-.
    + injection Hpf as <-. rewrite decide_False; [done|]. cbn. lia.
Qed.

(** X13. When no phase is active the constructor returns a problem without
    composition sets and without fixed indices, whose only constraints are
    the mass balances of the conditions, over no phase, and whose sparsity
    structure holds pairs of the Hessian data only. *)
Theorem problem_without_active_phase DB conds :
  entered_phases DB conds = [] →
  ∃ g log,
    GibbsOpt_ctor DB conds = Some (g, log) ∧
    phase_col g = [] ∧ comp_sets g = [] ∧ fixed_indices g = [] ∧
    constraints (cm g) =
      ((λ i : string * double, MassBalanceConstraint [] i.1 i.2) <$> xfrac conds) ∧
    (∀ x, x ∈ hess_sparsity_structure g →
       ∃ row col, x = [row; col] ∧ row ≤ col ∧
                  is_Some (constraint_hessian_data g !! (row, col))).
Proof.
  intros Hnone.
  assert (Hknown : variables_known DB conds).
  { unfold variables_known, looked_up, sublattice_pairs. rewrite Hnone. constructor. }
  apply GibbsOpt_ctor_returns in Hknown as [[g log] Hctor].
  exists g, log. split; [done|].
  destruct (GibbsOpt_ctor_inv _ _ _ _ Hctor)
    as (pf & outs & log1 & h & Hpf & Houts & _ & Hpc & _ & _ & Hcomp & Hcons & Hfixed
        & _ & _ & Hh & Hdata & Hsp & _).
  rewrite Hnone in Hpc. rewrite Hpc in *.
  cbn in Hpf, Houts. injection Hpf as <-. injection Houts as <-.
  split_and!; [done..|].
  intros x Hx.
  pose proof (hessian_pass_triangular
                (hessian_pairs (main_indices g) (jac_g_trees g))
                (objective_sparsity (main_indices g) (comp_sets g)) log1) as [_ Ht].
  rewrite <- Hh, <- Hsp, <- Hdata in Ht.
  destruct (Ht x Hx) as [Hobj|?]; [|done].
  rewrite Hcomp in Hobj. apply elem_of_objective_sparsity in Hobj as (cs & Hcs & _).
  by apply elem_of_nil in Hcs.
Qed.

(** X14. The log of a constructor that returns is, in this order: the
    record of the entry; the critical records of the configuration; one
    record for every variable of the index map; one record with the number
    of minima for every active phase; two records, of the left and the
    right side, for every constraint; one record for every Jacobian entry,
    with the indices of the entry; one record for every pair of a variable
    and a Jacobian entry whose second derivative is stored; the record of
    the exit. Nothing else is logged. *)
Theorem log_follows_the_passes DB conds g log :
  GibbsOpt_ctor DB conds = Some (g, log) →
  log =
    [LOG_CHANNEL_SEV "optimizer" debug [LStr "enter ctor"]] ++
    configuration_records conds (phase_col g) ++
    (variable_record <$> main_indices g) ++
    (minima_record (get_parameter_set DB) (main_ss g) (main_indices g) conds <$>
       phase_col g) ++
    (constraints (cm g) ≫= constraint_records) ++
    (entry_record <$> jac_g_trees g) ++
    (hessian_record <$>
       filter stored (hessian_pairs (main_indices g) (jac_g_trees g))) ++
    [LOG_SEV debug [LStr "function exit"]].
Proof.
  intros Hctor.
  destruct (GibbsOpt_ctor_inv _ _ _ _ Hctor)
    as (pf & outs & log1 & h & _ & _ & _ & _ & _ & _ & _ & _ & _ & Hjac & Hlog1 & Hh & _ & _ & ->).
  rewrite Hh, hessian_pass_log. cbn [snd]. rewrite Hlog1, Hjac.
  unfold jacobian_records, jacobian_entries. rewrite <- list_fmap_compose.
  change (entry_record ∘ _)
    with (λ p : (string * Z) * (nat * Constraint Phase), jacobian_record p.1 p.2).
  by rewrite <- !app_assoc.
Qed.

End MoreFacts.

(** ** The claims on the examples *)

Import Demo.

Ltac by_evaluation := refine (bool_decide_unpack _ _); vm_compute; exact I.

Lemma assembled1_eq : GibbsOpt_ctor (H := collaborators) db1 state1 = assembled1.
Proof. reflexivity. Qed.

Lemma assembled2_eq : GibbsOpt_ctor (H := collaborators) db2 state2 = assembled2.
Proof. reflexivity. Qed.

(** What the constructor returns on the first example. *)
Lemma example1 :
  ∃ g log,
    GibbsOpt_ctor (H := collaborators) db1 state1 = Some (g, log) ∧
    phase_col g = db1 ∧
    main_indices g = [("LIQ_0_A", 1); ("LIQ_0_B", 2); ("LIQ_FRAC", 0)] ∧
    constraints (cm g) =
      [SublatticeBalanceConstraint "LIQ" 0 ["A"; "B"];
       MassBalanceConstraint db1 "A" half] ∧
    fixed_indices g = [0] ∧
    jac_g_trees g !! 1%nat =
      Some {| cons_index := 1; var_index := 1; jac_flag := false;
              ast := binary "-" (binary "*" (string_type "LIQ_FRAC") (int_type 1))
                                (int_type 0) |}.
Proof.
  eexists _, _. split; [exact assembled1_eq|]. repeat split; reflexivity.
Qed.

(** What the constructor returns on the second example. *)
Lemma example2 :
  ∃ g log,
    GibbsOpt_ctor (H := collaborators) db2 state2 = Some (g, log) ∧
    phase_col g = [("ALPHA", [["A"; "B"]]); ("BETA", [["A"; "C"]; ["C"]])] ∧
    constraints (cm g) =
      [PhaseFractionBalanceConstraint (phase_col g);
       SublatticeBalanceConstraint "ALPHA" 0 ["A"; "B"];
       MassBalanceConstraint (phase_col g) "A" half;
       MassBalanceConstraint (phase_col g) "B" half] ∧
    fixed_indices g = [4].
Proof.
  eexists _, _. split; [exact assembled2_eq|]. repeat split; reflexivity.
Qed.

(** The Jacobian of the first example has an entry for the mass balance
    and the phase fraction, on which the test does not fire. *)
Lemma jacobian_entry_iff_not_zero_detected_witness :
  ∃ g log,
    GibbsOpt_ctor (H := collaborators) db1 state1 = Some (g, log) ∧
    ((∃ e, e ∈ jac_g_trees g ∧ cons_index e = 1 ∧ var_index e = 0) ↔
     zero_detected (H := collaborators)
       (MassBalanceConstraint db1 "A" half) "LIQ_FRAC" = false).
Proof.
  destruct example1 as (g & log & Hctor & Hpc & Hidx & Hcons & Hfix & Hjac).
  exists g, log. split; [exact Hctor|].
  apply (jacobian_entry_iff_not_zero_detected (H := collaborators)
           db1 state1 g log ("LIQ_FRAC", 0) 1%nat
           (MassBalanceConstraint db1 "A" half) Hctor).
  - rewrite Hidx. by_evaluation.
  - rewrite Hidx. by_evaluation.
  - rewrite Hcons. reflexivity.
Defined.

(** The second derivative of the entry of the mass balance and the site
    fraction of [A] with respect to the phase fraction is recorded at the
    pair (0, 1). *)
Lemma second_derivative_skipped_iff_zero_witness :
  ∃ g log,
    GibbsOpt_ctor (H := collaborators) db1 state1 = Some (g, log) ∧
    hessian_ast (constraint_hessian_data g) 0 1 1 =
      Some (binary "-"
              (binary "+" (binary "*" (int_type 1) (int_type 1))
                          (binary "*" (string_type "LIQ_FRAC") (int_type 0)))
              (int_type 0)).
Proof.
  destruct example1 as (g & log & Hctor & Hpc & Hidx & Hcons & Hfix & Hjac).
  exists g, log. split; [exact Hctor|].
  refine (proj1 (proj1 (proj2
    (second_derivative_skipped_iff_zero (H := collaborators)
       db1 state1 g log ("LIQ_FRAC", 0)
       {| cons_index := 1; var_index := 1; jac_flag := false;
          ast := binary "-" (binary "*" (string_type "LIQ_FRAC") (int_type 1))
                            (int_type 0) |} Hctor _ _ _ _)) _)).
  - rewrite Hidx. by_evaluation.
  - rewrite Hidx. by_evaluation.
  - exact (list_elem_of_lookup_2 _ 1%nat _ Hjac).
  - vm_compute. discriminate.
  - vm_compute; reflexivity.
Defined.

(** The Hessian data of the first example is triangular. *)
Lemma hessian_entries_are_triangular_witness :
  ∃ g log,
    GibbsOpt_ctor (H := collaborators) db1 state1 = Some (g, log) ∧
    (∀ row col, is_Some (constraint_hessian_data g !! (row, col)) → row ≤ col) ∧
    (∀ (i : string * Z) (j : jacobian_entry) s,
       i.2 > var_index j → hessian_body (H := collaborators) i j s = s).
Proof.
  destruct example1 as (g & log & Hctor & _).
  exists g, log. split; [exact Hctor|].
  pose proof (hessian_entries_are_triangular (H := collaborators)
                db1 state1 g log Hctor) as (Hkeys & _ & Hskip).
  split; [exact Hkeys|exact Hskip].
Defined.

(** With the two active phases of the second example there is a
    phase-fraction balance; with the one of the first example there is
    none and the fraction of the phase is the first fixed index. *)
Lemma phase_fraction_balance_iff_several_phases_witness :
  (∃ g log,
     GibbsOpt_ctor (H := collaborators) db2 state2 = Some (g, log) ∧
     ((∃ c, c ∈ constraints (cm g) ∧ is_phase_fraction_balance c) ↔
      (1 < length (phase_col g))%nat) ∧
     filter is_phase_fraction_balance (constraints (cm g)) =
       [PhaseFractionBalanceConstraint (phase_col g)]) ∧
  (∃ g log,
     GibbsOpt_ctor (H := collaborators) db1 state1 = Some (g, log) ∧
     (∀ c, c ∈ constraints (cm g) → ¬ is_phase_fraction_balance c) ∧
     ∃ index, left_at "LIQ_FRAC" (main_indices g) = Some index ∧
              fixed_indices g !! 0%nat = Some index).
Proof.
  split.
  - destruct example2 as (g & log & Hctor & Hpc & Hcons & Hfix).
    exists g, log. split; [exact Hctor|].
    pose proof (phase_fraction_balance_iff_several_phases (H := collaborators)
                  db2 state2 g log Hctor) as (Hiff & Hfilter & _).
    split; [exact Hiff|]. apply Hfilter. rewrite Hpc. vm_compute. lia.
  - destruct example1 as (g & log & Hctor & Hpc & _).
    exists g, log. split; [exact Hctor|].
    pose proof (phase_fraction_balance_iff_several_phases (H := collaborators)
                  db1 state1 g log Hctor) as (_ & _ & Hone & _).
    exact (Hone "LIQ" [["A"; "B"]] Hpc).
Defined.

(** In the second example the first sublattice of [ALPHA] has two tracked
    species and one sublattice balance, the first sublattice of [BETA] one
    tracked species and no balance. *)
Lemma sublattice_balance_by_tracked_species_witness :
  ∃ g log,
    GibbsOpt_ctor (H := collaborators) db2 state2 = Some (g, log) ∧
    filter (is_sublattice_balance_of "ALPHA" 0) (constraints (cm g)) =
      [SublatticeBalanceConstraint "ALPHA" 0 ["A"; "B"]] ∧
    filter (is_sublattice_balance_of "BETA" 0) (constraints (cm g)) = [].
Proof.
  destruct example2 as (g & log & Hctor & Hpc & Hcons & Hfix).
  exists g, log. split; [exact Hctor|].
  pose proof (sublattice_balance_by_tracked_species (H := collaborators)
                db2 state2 g log Hctor) as (pf & outs & _ & _ & _ & _ & Hcount).
  split.
  - refine (proj1 (proj2 (Hcount "ALPHA" [["A"; "B"]] 0%nat ["A"; "B"] _ _))).
    + rewrite Hpc. apply (list_elem_of_lookup_2 _ 0%nat). reflexivity.
    + reflexivity.
  - refine (proj1 (proj2 (Hcount "BETA" [["A"; "C"]; ["C"]] 0%nat ["A"; "C"] _ _))).
    + rewrite Hpc. apply (list_elem_of_lookup_2 _ 1%nat). reflexivity.
    + reflexivity.
Defined.

(** The two mass balances of the second example follow its mandatory
    constraints. *)
Lemma mass_balances_follow_mandatory_constraints_witness :
  ∃ g log,
    GibbsOpt_ctor (H := collaborators) db2 state2 = Some (g, log) ∧
    ∃ mandatory,
      constraints (cm g) =
        mandatory ++
        [MassBalanceConstraint (phase_col g) "A" half;
         MassBalanceConstraint (phase_col g) "B" half] ∧
      Forall (λ c, ¬ is_mass_balance c) mandatory.
Proof.
  destruct example2 as (g & log & Hctor & _).
  exists g, log. split; [exact Hctor|].
  exact (mass_balances_follow_mandatory_constraints (H := collaborators)
           db2 state2 g log Hctor).
Defined.

(** The only minimum of [LIQ] is its starting point. *)
Lemma single_minimum_is_starting_point_witness :
  ∃ g log,
    GibbsOpt_ctor (H := collaborators) db1 state1 = Some (g, log) ∧
    StdMap.find "LIQ" (comp_sets g) =
      Some {| dcs_phase := [["A"; "B"]];
              dcs_starting_point := Some [S754_zero false; S754_zero false] |}.
Proof.
  destruct example1 as (g & log & Hctor & Hpc & _).
  exists g, log. split; [exact Hctor|].
  refine (single_minimum_is_starting_point (H := collaborators) db1 state1 g log
            "LIQ" [["A"; "B"]] [S754_zero false; S754_zero false] Hctor _ _).
  - rewrite Hpc. apply (list_elem_of_lookup_2 _ 0%nat). reflexivity.
  - vm_compute; reflexivity.
Defined.

Lemma find_emplace_is_Some {V : Type} k k' (v : V) (m : list (string * V)) :
  k = k' ∨ is_Some (StdMap.find k m) →
  is_Some (StdMap.find k (StdMap.emplace k' v m)).
Proof.
  induction m as [|[k0 v0] m IH]; intros Hk.
  - destruct Hk as [->|[? [=]]]. cbn. by rewrite String.eqb_refl.
  - cbn [StdMap.emplace]. destruct (String.compare k' k0) eqn:Hcmp.
    + destruct Hk as [->|Hk]; [|done].
      apply String.compare_eq_iff in Hcmp as ->. cbn. by rewrite String.eqb_refl.
    + cbn [StdMap.find]. destruct (String.eqb_spec k k') as [->|Hne]; [done|].
      by destruct Hk.
    + cbn [StdMap.find] in *. destruct (String.eqb k k0); [done|]. by apply IH.
Qed.

Lemma insert_variables_found names (s : index_bimap * Z) n :
  n ∈ names ∨ is_Some (StdMap.find n s.1) →
  is_Some (StdMap.find n (for_each insert_variable names s).1).
Proof.
  revert s. induction names as [|x names IH]; intros s Hn.
  - by destruct Hn as [?%elem_of_nil|?].
  - rewrite for_each_cons. apply IH.
    destruct Hn as [[->|Hn]%elem_of_cons|Hn]; [right|by left|right];
      apply find_emplace_is_Some; auto.
Qed.

Lemma flat_map_bind {A B : Type} (f : A → list B) (l : list A) :
  flat_map f l = l ≫= f.
Proof. induction l as [|x l IH]; [done|]. cbn. by rewrite IH. Qed.

Lemma map_fmap {A B : Type} (f : A → B) (l : list A) : map f l = f <$> l.
Proof. induction l as [|x l IH]; [done|]. cbn. by rewrite IH. Qed.

(** The variable map of the instance has the names of section 4.1 of the
    spec. *)
Lemma d_build_variable_map_registers :
  build_variable_map_registers (H := collaborators).
Proof.
  intros phase_range conds n Hn. cbn. unfold left_at.
  apply insert_variables_found. left. rewrite flat_map_bind.
  apply list_elem_of_bind in Hn as (i & Hn & Hi).
  apply list_elem_of_bind. exists i. split; [|done].
  unfold phase_variables. rewrite flat_map_bind.
  apply elem_of_cons in Hn as [->|Hn]; [left|right].
  apply list_elem_of_bind in Hn as (j & Hn & Hj).
  apply list_elem_of_bind. exists j. split; [|done].
  rewrite map_fmap. unfold tracked in Hn. cbn in Hn.
  erewrite list_filter_iff; [exact Hn|].
  intros k. cbn. rewrite existsb_eqb_elem. apply bool_decide_spec.
Qed.

(** Without elements the constructor logs the failure and assembles the
    mass balance, the fixed index of the only phase and the Jacobian
    entry of the balance; without active phase it logs the failure and
    returns an object without phases. *)
Lemma configuration_failure_logged_not_thrown_witness :
  (∃ g log,
     GibbsOpt_ctor (H := collaborators) db1 state6 = Some (g, log) ∧
     no_components ∈ log ∧
     last log = Some (LOG_SEV debug [LStr "function exit"]) ∧
     phase_col g = db1 ∧
     main_indices g = [("LIQ_FRAC", 0)] ∧
     comp_sets g =
       [("LIQ", {| dcs_phase := [["A"; "B"]];
                   dcs_starting_point := Some [S754_zero false; S754_zero false] |})] ∧
     constraints (cm g) = [MassBalanceConstraint db1 "A" half] ∧
     fixed_indices g = [0] ∧
     jac_g_trees g =
       [{| cons_index := 0; var_index := 0; jac_flag := false;
           ast := binary "-" (binary "*" (int_type 1) (string_type "LIQ_0_A"))
                             (int_type 0) |}]) ∧
  (∃ g log,
     GibbsOpt_ctor (H := collaborators) db1 state4 = Some (g, log) ∧
     no_phases ∈ log ∧
     last log = Some (LOG_SEV debug [LStr "function exit"]) ∧
     phase_col g = [] ∧ constraints (cm g) = [] ∧ fixed_indices g = []).
Proof.
  split.
  - destruct (configuration_failure_logged_not_thrown (H := collaborators) db1 state6)
      as (_ & Hreturns & Hassembled); [left; reflexivity|].
    destruct (Hreturns (or_introl d_build_variable_map_registers))
      as (g & log & Hctor).
    destruct (Hassembled g log Hctor)
      as ((Hel & _ & _ & _ & _ & Hlast)
          & _ & Hpc & Hmap & Hcomp & Hcons & Hone & _ & Hjac & _).
    exists g, log. split; [exact Hctor|].
    assert (Hidx : main_indices g = [("LIQ_FRAC", 0)])
      by exact (f_equal snd Hmap).
    destruct (Hone "LIQ" [["A"; "B"]] eq_refl) as (index & Hat & Hfix).
    injection Hat as <-.
    rewrite Hcons in Hjac.
    split_and!;
      [exact (Hel eq_refl)|exact Hlast|exact Hpc|exact Hidx|exact Hcomp|exact Hcons
      |exact Hfix|exact Hjac].
  - destruct (configuration_failure_logged_not_thrown (H := collaborators) db1 state4)
      as (_ & Hreturns & Hassembled); [right; reflexivity|].
    destruct (Hreturns (or_intror eq_refl)) as (g & log & Hctor).
    destruct (Hassembled g log Hctor)
      as ((_ & Hnone & _ & _ & _ & Hlast)
          & _ & Hpc & _ & _ & Hcons & _ & Hfix & _).
    exists g, log. split; [exact Hctor|].
    split_and!;
      [exact (Hnone eq_refl)|exact Hlast|exact Hpc|exact Hcons|
       exact (Hfix (O_S 0))].
Defined.

(** [BETA] has two minima and one composition set, without starting
    point. *)
Lemma several_minima_no_action_witness :
  ∃ g log,
    GibbsOpt_ctor (H := collaborators) db2 state2 = Some (g, log) ∧
    filter (λ cs : string * DCompositionSet, cs.1 = "BETA") (comp_sets g) =
      [("BETA", {| dcs_phase := [["A"; "C"]; ["C"]]; dcs_starting_point := None |})] ∧
    (∀ r, r ∈ log → log_severity r = critical → r = no_components ∨ r = no_phases).
Proof.
  destruct (several_minima_no_action (H := collaborators) db2 state2
              "BETA" [["A"; "C"]; ["C"]])
    as (g & log & Hctor & Hone & Hlog & _).
  - apply (list_elem_of_lookup_2 _ 1%nat). reflexivity.
  - vm_compute. lia.
  - unfold variables_known. by_evaluation.
  - exists g, log. split; [exact Hctor|]. split; [exact Hone|exact Hlog].
Defined.

(** The fraction of [LIQ] is fixed, and it has a Jacobian entry and a
    tree in the Hessian data. *)
Lemma fixed_indices_are_differentiated_witness :
  ∃ g log,
    GibbsOpt_ctor (H := collaborators) db1 state1 = Some (g, log) ∧
    0 ∈ fixed_indices g ∧
    (∃ e, e ∈ jac_g_trees g ∧ var_index e = 0) ∧
    is_Some (hessian_ast (constraint_hessian_data g) 0 1 1).
Proof.
  destruct example1 as (g & log & Hctor & Hpc & Hidx & Hcons & Hfix & Hjac).
  exists g, log. split; [exact Hctor|].
  assert (Hfixed : 0 ∈ fixed_indices g) by (rewrite Hfix; by_evaluation).
  destruct (fixed_indices_are_differentiated (H := collaborators)
              db1 state1 g log ("LIQ_FRAC", 0) Hctor) as (Hjac' & Hhess & _).
  - rewrite Hidx. by_evaluation.
  - exact Hfixed.
  - split; [exact Hfixed|]. split.
    + eexists. split.
      * apply (Hjac' 1%nat (MassBalanceConstraint db1 "A" half)).
        -- rewrite Hcons. reflexivity.
        -- vm_compute; reflexivity.
      * reflexivity.
    + apply (Hhess {| cons_index := 1; var_index := 1; jac_flag := false;
                      ast := binary "-"
                               (binary "*" (string_type "LIQ_FRAC") (int_type 1))
                               (int_type 0) |}).
      * exact (list_elem_of_lookup_2 _ 1%nat _ Hjac).
      * vm_compute. discriminate.
      * vm_compute; reflexivity.
Defined.

(** ** The further properties on the examples *)

Lemma assembled5_eq : GibbsOpt_ctor (H := collaborators) db5 state5 = assembled5.
Proof. reflexivity. Qed.

(** What the constructor returns on the phase without sublattices. *)
Lemma example5 :
  ∃ g log,
    GibbsOpt_ctor (H := collaborators) db5 state5 = Some (g, log) ∧
    phase_col g = db5.
Proof.
  eexists _, _. split; [exact assembled5_eq|]. reflexivity.
Qed.

(** A tree of the Hessian data of the first example. *)
Lemma example1_hessian :
  ∃ g log,
    GibbsOpt_ctor (H := collaborators) db1 state1 = Some (g, log) ∧
    main_indices g = [("LIQ_0_A", 1); ("LIQ_0_B", 2); ("LIQ_FRAC", 0)] ∧
    hessian_ast (constraint_hessian_data g) 0 1 1 =
      Some (binary "-"
              (binary "+" (binary "*" (int_type 1) (int_type 1))
                          (binary "*" (string_type "LIQ_FRAC") (int_type 0)))
              (int_type 0)).
Proof.
  eexists _, _. split; [exact assembled1_eq|]. split; [reflexivity|].
  vm_compute. reflexivity.
Qed.

(** The constructor returns when no phase of the first database is
    entered. *)
Lemma example4 :
  ∃ g log, GibbsOpt_ctor (H := collaborators) db1 state4 = Some (g, log).
Proof.
  assert (Hknown : variables_known (H := collaborators) db1 state4)
    by (vm_compute; constructor).
  apply (GibbsOpt_ctor_returns (H := collaborators)) in Hknown as [[g log] Hctor].
  by exists g, log.
Qed.

(** The database of the second example is in the order of the names; its
    active phases are the first two. *)
Lemma phase_col_is_filtered_database_witness :
  ∃ g log,
    GibbsOpt_ctor (H := collaborators) db2 state2 = Some (g, log) ∧
    phase_col g =
      filter (λ i : string * DPhase,
                StdMap.find i.1 (phases state2) = Some ENTERED) db2.
Proof.
  destruct example2 as (g & log & Hctor & _).
  exists g, log. split; [exact Hctor|].
  apply (phase_col_is_filtered_database (H := collaborators) db2 state2 g log Hctor).
  repeat first [apply SSorted_nil | apply SSorted_cons
               | apply List.Forall_nil | apply List.Forall_cons | reflexivity].
Defined.

(** The conditions of the first example are kept. *)
Lemma conditions_are_not_modified_witness :
  ∃ g log,
    GibbsOpt_ctor (H := collaborators) db1 state1 = Some (g, log) ∧
    conditions g = state1.
Proof.
  destruct example1 as (g & log & Hctor & _).
  exists g, log. split; [exact Hctor|].
  exact (conditions_are_not_modified (H := collaborators) db1 state1 g log Hctor).
Defined.

(** The phase without sublattices has no minimum: its composition set has
    no starting point. *)
Lemma one_composition_set_per_phase_witness :
  ∃ g log,
    GibbsOpt_ctor (H := collaborators) db5 state5 = Some (g, log) ∧
    StdMap.keys (comp_sets g) = StdMap.keys (phase_col g) ∧
    StdMap.find "VOID" (comp_sets g) =
      Some {| dcs_phase := []; dcs_starting_point := None |}.
Proof.
  destruct example5 as (g & log & Hctor & Hpc).
  exists g, log. split; [exact Hctor|].
  pose proof (one_composition_set_per_phase (H := collaborators)
                db5 state5 g log Hctor) as [Hkeys Hfresh].
  split; [exact Hkeys|].
  apply (Hfresh "VOID" []); [|reflexivity].
  rewrite Hpc. by_evaluation.
Defined.

(** The entries of the Jacobian of the first example are for distinct
    pairs. *)
Lemma jacobian_entries_are_distinct_witness :
  ∃ g log,
    GibbsOpt_ctor (H := collaborators) db1 state1 = Some (g, log) ∧
    NoDup ((λ e, (cons_index e, var_index e)) <$> jac_g_trees g).
Proof.
  destruct example1 as (g & log & Hctor & Hpc & Hidx & _).
  exists g, log. split; [exact Hctor|].
  apply (jacobian_entries_are_distinct (H := collaborators) db1 state1 g log Hctor).
  rewrite Hidx. by_evaluation.
Defined.

(** The entry of the mass balance and the site fraction of [A] in the
    first example. *)
Lemma jacobian_entries_are_well_formed_witness :
  ∃ g log,
    GibbsOpt_ctor (H := collaborators) db1 state1 = Some (g, log) ∧
    ∃ (i : string * Z) (k : nat) (c : Constraint DPhase),
      i ∈ main_indices g ∧ constraints (cm g) !! k = Some c ∧
      zero_detected (H := collaborators) c i.1 = false ∧
      1 = Z.of_nat k ∧ 0 ≤ 1 < Z.of_nat (length (constraints (cm g))) ∧
      1 = i.2 ∧ false = false ∧
      binary "-" (binary "*" (string_type "LIQ_FRAC") (int_type 1)) (int_type 0) =
        list_type [string_type "-";
                   d_simplify (d_differentiate (d_lhs c) i.1);
                   d_simplify (d_differentiate (d_rhs c) i.1)].
Proof.
  destruct example1 as (g & log & Hctor & Hpc & Hidx & Hcons & Hfix & Hjac).
  exists g, log. split; [exact Hctor|].
  exact (jacobian_entries_are_well_formed (H := collaborators) db1 state1 g log
           {| cons_index := 1; var_index := 1; jac_flag := false;
              ast := binary "-" (binary "*" (string_type "LIQ_FRAC") (int_type 1))
                                (int_type 0) |}
           Hctor (list_elem_of_lookup_2 _ 1%nat _ Hjac)).
Defined.

(** The tree recorded at the pair (0, 1) for the mass balance of the first
    example is the derivative of a Jacobian entry. *)
Lemma hessian_trees_are_second_derivatives_witness :
  ∃ g log,
    GibbsOpt_ctor (H := collaborators) db1 state1 = Some (g, log) ∧
    (∃ (i : string * Z) (j : jacobian_entry),
       i ∈ main_indices g ∧ j ∈ jac_g_trees g ∧
       0 = i.2 ∧ 1 = var_index j ∧ 1 = cons_index j ∧ 0 ≤ 1 ∧
       binary "-"
         (binary "+" (binary "*" (int_type 1) (int_type 1))
                     (binary "*" (string_type "LIQ_FRAC") (int_type 0)))
         (int_type 0) = d_differentiate (ast j) i.1 ∧
       is_zero_tree (H := collaborators)
         (binary "-"
            (binary "+" (binary "*" (int_type 1) (int_type 1))
                        (binary "*" (string_type "LIQ_FRAC") (int_type 0)))
            (int_type 0)) = false) ∧
    (∀ row col asts,
       constraint_hessian_data g !! (row, col) = Some asts → asts ≠ ∅).
Proof.
  destruct example1_hessian as (g & log & Hctor & Hidx & Hast).
  exists g, log. split; [exact Hctor|].
  pose proof (hessian_trees_are_second_derivatives (H := collaborators)
                db1 state1 g log Hctor) as [Hsound Hnonempty].
  split; [exact (Hsound 0 1 1 _ Hast)|exact Hnonempty].
Defined.

(** The pair (0, 1) is in the sparsity structure of the first example as
    the key of an entry of the Hessian data. *)
Lemma sparsity_structure_is_union_witness :
  ∃ g log,
    GibbsOpt_ctor (H := collaborators) db1 state1 = Some (g, log) ∧
    [0; 1] ∈ hess_sparsity_structure g.
Proof.
  destruct example1_hessian as (g & log & Hctor & Hidx & Hast).
  exists g, log. split; [exact Hctor|].
  apply (sparsity_structure_is_union (H := collaborators) db1 state1 g log [0; 1] Hctor).
  right. exists 0, 1. split; [reflexivity|].
  unfold hessian_ast in Hast.
  destruct (constraint_hessian_data g !! (0, 1)) as [asts|]; [by exists asts|discriminate].
Defined.

(** With no phase entered the log has the record of the phases and not
    the record of the components. *)
Lemma critical_records_iff_configuration_witness :
  ∃ g log,
    GibbsOpt_ctor (H := collaborators) db1 state4 = Some (g, log) ∧
    (no_components ∈ log ↔ elements state4 = []) ∧
    (no_phases ∈ log ↔ phase_col g = []) ∧
    head log = Some (LOG_CHANNEL_SEV "optimizer" debug [LStr "enter ctor"]).
Proof.
  destruct example4 as (g & log & Hctor).
  exists g, log. split; [exact Hctor|].
  exact (critical_records_iff_configuration (H := collaborators)
           db1 state4 g log Hctor).
Defined.

(** The fixed index of the first example is the index of a variable. *)
Lemma fixed_indices_are_variables_witness :
  ∃ g log,
    GibbsOpt_ctor (H := collaborators) db1 state1 = Some (g, log) ∧
    ∃ n, left_at n (main_indices g) = Some 0 ∧ (n, 0) ∈ main_indices g.
Proof.
  destruct example1 as (g & log & Hctor & Hpc & Hidx & Hcons & Hfix & Hjac).
  exists g, log. split; [exact Hctor|].
  apply (fixed_indices_are_variables (H := collaborators) db1 state1 g log 0 Hctor).
  rewrite Hfix. by_evaluation.
Defined.

(** The second example has four constraints and one fixed index. *)
Lemma numbers_of_constraints_and_fixed_indices_witness :
  ∃ g log,
    GibbsOpt_ctor (H := collaborators) db2 state2 = Some (g, log) ∧
    length (constraints (cm g)) = 4%nat ∧ length (fixed_indices g) = 1%nat.
Proof.
  destruct example2 as (g & log & Hctor & Hpc & Hcons & Hfix).
  exists g, log. split; [exact Hctor|].
  pose proof (numbers_of_constraints_and_fixed_indices (H := collaborators)
                db2 state2 g log Hctor) as [Hc Hf].
  rewrite Hpc in Hc, Hf. split; [exact Hc|exact Hf].
Defined.

(** No phase of the first database is entered in the fourth state. *)
Lemma problem_without_active_phase_witness :
  ∃ g log,
    GibbsOpt_ctor (H := collaborators) db1 state4 = Some (g, log) ∧
    phase_col g = [] ∧ comp_sets g = [] ∧ fixed_indices g = [] ∧
    constraints (cm g) =
      ((λ i : string * double, MassBalanceConstraint [] i.1 i.2) <$> xfrac state4) ∧
    (∀ x, x ∈ hess_sparsity_structure g →
       ∃ row col, x = [row; col] ∧ row ≤ col ∧
                  is_Some (constraint_hessian_data g !! (row, col))).
Proof.
  apply (problem_without_active_phase (H := collaborators) db1 state4).
  reflexivity.
Defined.

(** The log of the first example. *)
Lemma log_follows_the_passes_witness :
  ∃ g log,
    GibbsOpt_ctor (H := collaborators) db1 state1 = Some (g, log) ∧
    log =
      [LOG_CHANNEL_SEV "optimizer" debug [LStr "enter ctor"]] ++
      configuration_records (H := collaborators) state1 (phase_col g) ++
      (variable_record <$> main_indices g) ++
      (minima_record (H := collaborators) tt (main_ss g) (main_indices g) state1 <$>
         phase_col g) ++
      (constraints (cm g) ≫= constraint_records (H := collaborators)) ++
      (entry_record <$> jac_g_trees g) ++
      (hessian_record <$>
         filter (stored (H := collaborators))
           (hessian_pairs (main_indices g) (jac_g_trees g))) ++
      [LOG_SEV debug [LStr "function exit"]].
Proof.
  destruct example1 as (g & log & Hctor & _).
  exists g, log. split; [exact Hctor|].
  exact (log_follows_the_passes (H := collaborators) db1 state1 g log Hctor).
Defined.
